(** * rtbkit: the REST proxy and the bid request synthesizer test harness

    Shallow embedding of
    - [service/http_rest_proxy.cc] (module [Rest]): [HttpRestProxy::perform],
      the [JsonRestProxy] constructor, [putOrPost], [get], [authenticate] and
      [sleepAfterRetry];
    - [common/testing/bid_request_synth_test.cc] (module [Json]): the
      document comparison [check];
    - the synthesizer the tests drive (module [Synth]), from its
      specification: the node tree, [record], [generate], [dump], [load].

    Strings are [string], integers are [Z] or [nat], C++ exceptions are an
    explicit outcome, and the network and [random()] are oracles passed in.
    The facts follow the definitions, in [RestFacts], [JsonFacts] and
    [SynthFacts]; [ProxyFacts], [PoolFacts] and [CheckFacts] add how
    [putOrPost] ends, what [perform] keeps of a reply and leaves on a handle,
    the connection pool, and the comparison [check] as a relation. *)

From stdpp Require Import gmap strings list pretty.
From Stdlib Require Import ZArith Ascii.
From Stdlib Require QArith Qcanon DecimalPos DecimalN.

Local Open Scope Z_scope.

(** ** Control flow shared by both parts *)

(** What a C++ call does: return a value, throw, or (for the fuelled loop
    only) run out of fuel. *)
Inductive Outcome (E A : Type) : Type :=
| Return (a : A)
| Throw (e : E)
| OutOfFuel.
Arguments Return {E A} a.
Arguments Throw {E A} e.
Arguments OutOfFuel {E A}.

Module Rest.

(** *** Data *)

(** [RestParams]: a vector of (name, value) pairs. *)
Abbreviation RestParams := (list (string * string)).

(** [HttpRestProxy::Content], as far as [perform] reads it: [data] is a
    pointer (null when there is no content), [size] the number of bytes to
    send from it. *)
Record Content := mkContent {
  data : option string;
  size : nat;
  contentType : string
}.

(** [HttpRestProxy::Response], as far as this file writes and reads it.
    [header_] holds the text handed to [header_.parse]. *)
Record Response := mkResponse {
  code_ : Z;
  body_ : string;
  header_ : string;
  errorCode_ : Z;
  errorMessage_ : string
}.

(** [Response::code()] returns [code_]. *)
Definition code (r : Response) : Z := code_ r.

(** The fields of [HttpRestProxy] and [JsonRestProxy] the code reads. *)
Record JsonRestProxy := mkProxy {
  serviceUri : string;
  noSSLChecks : bool;
  debug : bool;
  cookies : list string;
  authToken : string;
  maxRetries : nat
}.

(** The options [perform] sets on the curl handle, in the order set. *)
Inductive CurlOption :=
| CustomRequest (verb : string)
| Url (uri : string)
| Verbose (b : bool)
| ErrorBuffer_null
| TimeoutMs (ms : Z)
| Timeout (s : Z)
| NoSignal (n : Z)
| SslVerifyHost (b : bool)
| SslVerifyPeer (b : bool)
| BoostHeaderFunction
| BoostWriteFunction
| BoostProgressFunction
| CookieList (cookie : string)
| PostFields (s : string)
| PostFieldSize (n : Z)
| HttpHeader (lines : list string).

(** What the transfer does once the handle is set up: curl fails with an
    error code, or it delivers the status code, the header lines and the body
    chunks to the callbacks. *)
Inductive Reply :=
| CurlError (curlcode : Z)
| Delivered (status : Z) (headerLines : list string) (chunks : list string).

(** The exceptions: [curlpp::LibcurlRuntimeError] and [ML::Exception] with
    its message. *)
Inductive Exception :=
| LibcurlRuntimeError (curlcode : Z)
| MLException (what : string).

Definition Unrecoverable : Exception :=
  MLException "[%d] error is unrecoverable".
Definition TooManyRetries : Exception :=
  MLException ("[%d] too many retries" +:+ String "010"%char EmptyString).

(** What a call leaves behind, oldest first. *)
Inductive Event :=
| EvPerform (opts : list CurlOption)
| EvFirstError (verb resource : string) (code : Z) (retries : nat)
    (body respBody : string)
| EvSleep (retryNbr : Z) (rnd : Z) (maxSlot : Z)
| EvRetrying (verb resource : string) (attempt maxRetries : nat).

(** What [http_rest_proxy.h], [RestParams] and libcurl declare and this file
    uses without defining: the escaping of query parameters, the error
    texts of curl, the default [Response], the accessor [Response::body()]
    (which may throw), the [Content] built from a string and a content type,
    the default arguments [timeout] and [exceptions] of [perform] ([None]
    is the sentinel [-1], [Some t] a timeout of [t] seconds), the base
    constructor and [HttpRestProxy::get]. *)
Record Header := mkHeader {
  uriEscaped : RestParams → string;
  curl_easy_strerror : Z → string;
  Response_default : Response;
  Response_body : Response → Outcome Exception string;
  Content_of : string → string → Content;
  default_timeout : option Z;
  default_exceptions : bool;
  HttpRestProxy_ctor : string → JsonRestProxy;
  HttpRestProxy_get :
    JsonRestProxy → string → RestParams → RestParams →
    Outcome Exception Response * list Event
}.

(** [body()] returns, whatever the response. *)
Definition body_returns (h : Header) : Prop :=
  ∀ r, ∃ b, Response_body h r = Return b.

(** *** HttpRestProxy::perform *)

Section Perform.

Variable h : Header.

(** The header callback: lines between [HTTP/1.1 100 Continue] and the blank
    line that ends it are dropped, the others appended. *)
Definition onHeader (st : bool * string) (headerLine : string) : bool * string :=
  let '(afterContinue, responseHeaders) := st in
  if String.prefix "HTTP/1.1 100 Continue" headerLine then (true, responseHeaders)
  else if afterContinue then
    (if decide (headerLine = String "013"%char (String "010"%char EmptyString))
     then (false, responseHeaders) else (true, responseHeaders))
  else (false, responseHeaders +:+ headerLine).

Definition curlHeaders (content : Content) (headers : RestParams) : list string :=
  map (λ hd, hd.1 +:+ ": " +:+ hd.2) headers
  ++ match data content with
     | Some _ => [ "Content-Length: " +:+ pretty (Z.of_nat (size content));
                   "Content-Type: " +:+ contentType content ]
     | None => []
     end.

(** Every [setOpt] of [perform], in program order. *)
Definition perform_opts (p : JsonRestProxy) (verb resource : string)
    (content : Content) (queryParams headers : RestParams)
    (timeout : option Z) : list CurlOption :=
  let uri := serviceUri p +:+ resource +:+ uriEscaped h queryParams in
  [CustomRequest verb; Url uri]
  ++ (if debug p then [Verbose true] else [])
  ++ [ErrorBuffer_null]
  ++ [match timeout with Some t => TimeoutMs (t * 1000) | None => Timeout 0 end]
  ++ [NoSignal 1]
  ++ (if noSSLChecks p then [SslVerifyHost false; SslVerifyPeer false] else [])
  ++ [BoostHeaderFunction; BoostWriteFunction; BoostProgressFunction]
  ++ map CookieList (cookies p)
  ++ match data content with
     | Some d => [PostFields (String.substring 0 (size content) d);
                  PostFieldSize (Z.of_nat (size content))]
     | None => [PostFieldSize (-1); PostFields ""]
     end
  ++ [HttpHeader (curlHeaders content headers)].

(** The [Response] built from what the callbacks collected. *)
Definition delivered (status : Z) (headerLines chunks : list string) : Response :=
  let responseHeaders := (foldl onHeader (false, "") headerLines).2 in
  let body := foldl String.append "" chunks in
  let response := Response_default h in
  mkResponse status body responseHeaders (errorCode_ response)
    (errorMessage_ response).

(** [perform] without an [onData] callback: the options are set, the
    transfer runs, and the reply becomes a [Response] or an exception. *)
Definition perform (p : JsonRestProxy) (verb resource : string)
    (content : Content) (queryParams headers : RestParams)
    (timeout : option Z) (exceptions : bool) (net : Reply)
  : Outcome Exception Response * list Event :=
  let ev := [EvPerform (perform_opts p verb resource content queryParams
                          headers timeout)] in
  match net with
  | CurlError c =>
      if exceptions then (Throw (LibcurlRuntimeError c), ev)
      else
        let response := Response_default h in
        (Return (mkResponse (code_ response) (body_ response)
                   (header_ response) c (curl_easy_strerror h c)), ev)
  | Delivered status headerLines chunks =>
      (Return (delivered status headerLines chunks), ev)
  end.

(** *** JsonRestProxy *)

(** [url.find(pat)]: the first position of [pat] in [url], if any. *)
Definition find (url pat : string) : option nat := String.index 0 pat url.

Definition JsonRestProxy_ctor (url : string) : JsonRestProxy :=
  let base := HttpRestProxy_ctor h url in
  let p := mkProxy (serviceUri base) (noSSLChecks base) (debug base)
             (cookies base) "" 10 in
  if decide (find url "https://" = Some 0%nat)
  then mkProxy (serviceUri p) true (debug p) (cookies p) (authToken p)
         (maxRetries p)
  else p.

(** [int] is 32 bits wide, two's complement. *)
Definition wrap_int (z : Z) : Z := (z + 2^31) `mod` 2^32 - 2^31.

(** [sleepAfterRetry]: the sleep lasts [rnd / RAND_MAX * maxSlot * 0.2]
    seconds; the event keeps the two integer factors. *)
Definition maxSlot (retryNbr : Z) : Z :=
  wrap_int (wrap_int (Z.shiftl 1 retryNbr) - 1).

Definition sleepAfterRetry (retryNbr : Z) (rnd : Z) : list Event :=
  [EvSleep retryNbr rnd (maxSlot retryNbr)].

Definition quote : string := String "034"%char EmptyString.

Section PutOrPost.

Variable p : JsonRestProxy.
Variables (resource body : string) (isPost : bool).
(** [net k] is what the transfer of attempt [k] does, [rnd k] what
    [random()] returns in the sleep after it. *)
Variable net : nat → Reply.
Variable rnd : nat → Z.

Definition putOrPost_headers : RestParams :=
  if decide (0 < String.length (authToken p))%nat
  then [("Cookie", "token=" +:+ quote +:+ authToken p +:+ quote)]
  else [].

(** The options of every request of [putOrPost]. *)
Definition request_opts : list CurlOption :=
  perform_opts p (if isPost then "POST" else "PUT") resource
    (Content_of h body "application/json") [] putOrPost_headers
    (default_timeout h).

(** The report printed on the first failure; it reads [body()]. *)
Definition first_error (verb : string) (code : Z) (retries : nat)
    (response : Response) : Outcome Exception (list Event) :=
  if bool_decide (retries = 0%nat) then
    match Response_body h response with
    | Return respBody =>
        Return [EvFirstError verb resource code retries body respBody]
    | Throw e => Throw e
    | OutOfFuel => OutOfFuel
    end
  else Return [].

(** The [for] loop, entered with the current [retries] and [response]. *)
Fixpoint putOrPost_loop (fuel : nat) (retries : nat) (response : Response)
  : Outcome Exception Response * list Event :=
  let verb := if isPost then "POST" else "PUT" in
  let method := if isPost then "POST" else "PUT" in
  let content := Content_of h body "application/json" in
  if bool_decide (retries < maxRetries p)%nat then
    match fuel with
    | O => (OutOfFuel, [])
    | S fuel' =>
        match perform p method resource content [] putOrPost_headers
                (default_timeout h) (default_exceptions h) (net retries) with
        | (Return response, ev) =>
            let code := code response in
            if bool_decide (code < 400) then (Return response, ev)
            else
              match first_error verb code retries response with
              | Return ev1 =>
                  if bool_decide (code < 500)
                  then (Throw Unrecoverable, ev ++ ev1)
                  else if bool_decide (retries < maxRetries p)%nat then
                    let ev2 := sleepAfterRetry (Z.of_nat retries) (rnd retries)
                               ++ [EvRetrying verb resource (retries + 1)
                                     (maxRetries p)] in
                    let '(res, evs) :=
                      putOrPost_loop fuel' (S retries) response in
                    (res, ev ++ ev1 ++ ev2 ++ evs)
                  else (Throw TooManyRetries, ev ++ ev1)
              | Throw e => (Throw e, ev)
              | OutOfFuel => (OutOfFuel, ev)
              end
        | (Throw e, ev) => (Throw e, ev)
        | (OutOfFuel, ev) => (OutOfFuel, ev)
        end
    end
  else (Return response, []).

Definition putOrPost : Outcome Exception Response * list Event :=
  putOrPost_loop (maxRetries p) 0 (Response_default h).

End PutOrPost.

(** [JsonRestProxy::get] hands [HttpRestProxy::get] the resource, no query
    parameters and the headers. *)
Definition get_headers (p : JsonRestProxy) : RestParams :=
  if decide (0 < String.length (authToken p))%nat
  then [("Cookie", "token=" +:+ quote +:+ authToken p +:+ quote)]
  else [].

Definition get (p : JsonRestProxy) (resource : string)
  : Outcome Exception Response * list Event :=
  HttpRestProxy_get h p resource [] (get_headers p).

(** [authenticate]: [postTyped] is declared outside this file; [posted] is
    the token it returned, or [None] when it threw an [ML::Exception]. *)
Definition authenticate (p : JsonRestProxy) (posted : option string)
  : bool * JsonRestProxy :=
  match posted with
  | Some token =>
      (true, mkProxy (serviceUri p) (noSSLChecks p) (debug p) (cookies p)
               token (maxRetries p))
  | None => (false, p)
  end.

End Perform.

(** *** Reading a trace *)

(** The attempts and the sleeps of a trace, in order. *)
Inductive Tick :=
| Attempt
| Sleep (retryNbr maxSlot : Z).

Global Instance Tick_eq_dec : EqDecision Tick.
Proof. solve_decision. Defined.

Definition tick (e : Event) : list Tick :=
  match e with
  | EvPerform _ => [Attempt]
  | EvSleep n _ m => [Sleep n m]
  | _ => []
  end.

Definition schedule (tr : list Event) : list Tick := concat (map tick tr).

(** [n] failed attempts starting at attempt [from], each followed by its
    sleep. *)
Definition backoff_from (from n : nat) : list Tick :=
  concat (map (λ j, [Attempt; Sleep (Z.of_nat j) (maxSlot (Z.of_nat j))])
            (seq from n)).
Definition backoff (n : nat) : list Tick := backoff_from 0 n.

(** The reply of a server error: a status of 500 or above. *)
Definition server_error (r : Reply) : Prop :=
  ∃ status headerLines chunks,
    r = Delivered status headerLines chunks ∧ 500 ≤ status.

(** The header lines handed to curl by a [perform] event. *)
Definition header_lines (e : Event) : list string :=
  match e with
  | EvPerform opts =>
      concat (map (λ o, match o with HttpHeader ls => ls | _ => [] end) opts)
  | _ => []
  end.

(** The options set by a [perform] event. *)
Definition options (e : Event) : list CurlOption :=
  match e with EvPerform opts => opts | _ => [] end.

Definition cookie_value (token : string) : string :=
  "token=" +:+ quote +:+ token +:+ quote.
Definition cookie_line (token : string) : string :=
  "Cookie: " +:+ cookie_value token.


(** The proxy after any number of calls of its own methods: [get],
    [putOrPost] and [perform] are [const], [authenticate] stores a token. *)
Inductive after (p : JsonRestProxy) : JsonRestProxy → Prop :=
| after_ctor : after p p
| after_authenticate p' posted :
    after p p' → after p (authenticate p' posted).2.

(** *** Sample runs *)

(** A header with plain accessors; a proxy with three attempts and a token;
    a server that fails twice and one that always fails. *)
Definition plain_header : Header :=
  mkHeader (λ _, "") (λ _, "") (mkResponse 0 "" "" 0 "")
    (λ r, Return (body_ r))
    (λ s ct, mkContent (Some s) (String.length s) ct)
    None true
    (λ url, mkProxy url false false [] "" 0)
    (λ _ _ _ _, (Return (mkResponse 200 "" "" 0 ""), [])).
Definition proxy3 : JsonRestProxy :=
  mkProxy "http://bids" false false [] "s3cr3t" 3.
Definition fails_twice (j : nat) : Reply :=
  if bool_decide (j < 2)%nat then Delivered 503 [] []
  else Delivered 200 [] ["ok"].
Definition always_fails (j : nat) : Reply := Delivered 503 [] ["busy"].

(** *** What an attempt gets and what a handle keeps *)

(** What attempt [k] of [putOrPost] gets from [perform]. *)
Definition attempt (h : Header) (p : JsonRestProxy) (resource body : string)
    (isPost : bool) (net : nat → Reply) (k : nat)
  : Outcome Exception Response :=
  (perform h p (if isPost then "POST" else "PUT") resource
     (Content_of h body "application/json") [] (putOrPost_headers p)
     (default_timeout h) (default_exceptions h) (net k)).1.

(** [body()] returns where [putOrPost] calls it: on the response of the
    first attempt, when its code is 400 or above. *)
Definition first_report_returns (h : Header) (p : JsonRestProxy)
    (resource body : string) (isPost : bool) (net : nat → Reply) : Prop :=
  ∀ resp,
    attempt h p resource body isPost net 0 = Return resp →
    400 ≤ code resp →
    ∃ b, Response_body h resp = Return b.


(** The first-failure reports of a trace. *)
Definition is_first_error (e : Event) : bool :=
  match e with EvFirstError _ _ _ _ _ _ => true | _ => false end.

(** The blank line that ends a block of header lines. *)
Definition CRLF : string := String "013"%char (String "010"%char EmptyString).

(** The value an option of a handle has after the [setOpt]s of [log],
    oldest first: the last one set, if it was set at all. *)
Definition ssl_verify_peer (log : list CurlOption) : option bool :=
  last (omap (λ o, match o with SslVerifyPeer b => Some b | _ => None end) log).
Definition ssl_verify_host (log : list CurlOption) : option bool :=
  last (omap (λ o, match o with SslVerifyHost b => Some b | _ => None end) log).
Definition verbose (log : list CurlOption) : option bool :=
  last (omap (λ o, match o with Verbose b => Some b | _ => None end) log).

(** *** authenticate, with the exceptions it lets through *)

(** [authenticate] catches [ML::Exception] only: [posted] is what
    [postTyped] did, returning the token or throwing. *)
Definition authenticate_call (p : JsonRestProxy)
    (posted : Outcome Exception string)
  : Outcome Exception bool * JsonRestProxy :=
  match posted with
  | Return token =>
      (Return true,
       mkProxy (serviceUri p) (noSSLChecks p) (debug p) (cookies p) token
         (maxRetries p))
  | Throw (MLException _) => (Return false, p)
  | Throw e => (Throw e, p)
  | OutOfFuel => (OutOfFuel, p)
  end.

(** *** The connection pool *)

(** A [curlpp::Easy] handle, named by the order in which [new] made it. *)
Abbreviation Easy := nat.

(** The pool of an [HttpRestProxy]: the vector [inactive], its back at the
    end of the list, and the number of handles made by [new] so far. *)
Record Pool := mkPool {
  inactive : list Easy;
  made : nat
}.

Definition Pool_new : Pool := mkPool [] 0.

(** [getConnection]: a new handle when [inactive] is empty, its back
    otherwise. *)
Definition getConnection (s : Pool) : Easy * Pool :=
  match last (inactive s) with
  | None => (made s, mkPool (inactive s) (S (made s)))
  | Some res => (res, mkPool (removelast (inactive s)) (made s))
  end.

Definition doneConnection (conn : Easy) (s : Pool) : Pool :=
  mkPool (inactive s ++ [conn]) (made s).

(** [~Connection]: a connection without a handle gives nothing back. *)
Definition Connection_dtor (conn : option Easy) (s : Pool) : Pool :=
  match conn with
  | None => s
  | Some c => doneConnection c s
  end.

(** [~HttpRestProxy]: the handles it deletes. *)
Definition HttpRestProxy_dtor (s : Pool) : list Easy := inactive s.

(** What [perform] does to the pool: it takes a connection, runs the
    transfer on its handle, and the connection is destroyed when the call
    ends, by return or by exception. *)
Definition perform_pool (s : Pool) : Easy * Pool :=
  let '(conn, s') := getConnection s in
  (conn, Connection_dtor (Some conn) s').

(** The pool as the calls of [perform] in flight drive it, each step under
    the lock: one call takes a connection, or one call ends and destroys the
    connection it holds. The state is the pool and the handles held; a call
    can only give back a handle it holds. *)
Inductive PoolOp :=
| Take
| Give (conn : Easy).

Definition pool_step (st : Pool * list Easy) (op : PoolOp)
  : option (Pool * list Easy) :=
  match op with
  | Take => let '(conn, s') := getConnection st.1 in Some (s', conn :: st.2)
  | Give conn =>
      if decide (conn ∈ st.2)
      then Some (Connection_dtor (Some conn) st.1,
                 filter (λ c, c ≠ conn) st.2)
      else None
  end.

Fixpoint pool_run (ops : list PoolOp) (st : Pool * list Easy)
  : option (Pool * list Easy) :=
  match ops with
  | [] => Some st
  | op :: ops' =>
      match pool_step st op with
      | Some st' => pool_run ops' st'
      | None => None
      end
  end.

(** The largest number of handles held at once during a run. *)
Fixpoint pool_peak (ops : list PoolOp) (st : Pool * list Easy) : nat :=
  match ops with
  | [] => length st.2
  | op :: ops' =>
      match pool_step st op with
      | Some st' => length st.2 `max` pool_peak ops' st'
      | None => length st.2
      end
  end.

(** Every handle made is in [inactive] or held, once. *)
Definition conserved (st : Pool * list Easy) : Prop :=
  inactive st.1 ++ st.2 ≡ₚ seq 0 (made st.1).

(** *** More sample runs *)

(** A server that fails once and then drops the connection; a header whose
    [body()] throws; a response that follows an interim one. *)
Definition fails_then_drops (j : nat) : Reply :=
  if bool_decide (j < 1)%nat then Delivered 503 [] [] else CurlError 7.
Definition throwing_header : Header :=
  mkHeader (λ _, "") (λ _, "") (mkResponse 0 "" "" 0 "")
    (λ _, Throw (MLException "no body"))
    (λ s ct, mkContent (Some s) (String.length s) ct)
    None true
    (λ url, mkProxy url false false [] "" 0)
    (λ _ _ _ _, (Return (mkResponse 200 "" "" 0 ""), [])).
Definition continue_line : string := "HTTP/1.1 100 Continue" +:+ CRLF.
Definition ok_lines : list string :=
  ["HTTP/1.1 200 OK" +:+ CRLF; "Content-Length: 2" +:+ CRLF; CRLF].

End Rest.

(** ** The JSON values of the test harness *)

Module Json.

(** [Json::ValueType], in the order of the enumeration. *)
Inductive ValueType :=
| nullValue | intValue | uintValue | realValue
| stringValue | booleanValue | arrayValue | objectValue.

Global Instance ValueType_eq_dec : EqDecision ValueType.
Proof. solve_decision. Defined.

(** [Json::Value]. An object is a map from member names to values, so two
    objects with the same members are the same value. A real is the rational
    it denotes (a JSON text cannot write a NaN or an infinity). *)
#[warnings="-register-all"]
Inductive Value :=
| null
| int (i : Z)
| uint (u : N)
| real (r : Qcanon.Qc)
| str (s : string)
| boolean (b : bool)
| array (elems : list Value)
| object (members : gmap string Value).

Global Instance Value_eq_dec : EqDecision Value.
Proof.
  refine (fix go (x y : Value) {struct x} : Decision (x = y) :=
    let _ : EqDecision Value := go in
    match x, y with
    | null, null => left _
    | int a, int b => cast_if (decide (a = b))
    | uint a, uint b => cast_if (decide (a = b))
    | real a, real b => cast_if (decide (a = b))
    | str a, str b => cast_if (decide (a = b))
    | boolean a, boolean b => cast_if (decide (a = b))
    | array a, array b => cast_if (decide (a = b))
    | object a, object b => cast_if (decide (a = b))
    | _, _ => right _
    end); abstract congruence.
Defined.

Definition type (v : Value) : ValueType :=
  match v with
  | null => nullValue
  | int _ => intValue
  | uint _ => uintValue
  | real _ => realValue
  | str _ => stringValue
  | boolean _ => booleanValue
  | array _ => arrayValue
  | object _ => objectValue
  end.

(** The number of constructors of a value, to recurse on. *)
Fixpoint vsize (v : Value) : nat :=
  match v with
  | array l => S (foldr (λ x acc, vsize x + acc)%nat 0%nat l)
  | object m => S (map_fold (λ _ x acc, vsize x + acc)%nat 0%nat m)
  | _ => 1%nat
  end.

Definition is_scalar (v : Value) : bool :=
  match v with
  | array _ | object _ => false
  | _ => true
  end.

(** The members of an object and the elements of an array; empty for the
    other types. *)
Definition members_of (v : Value) : gmap string Value :=
  match v with object m => m | _ => ∅ end.
Definition elems_of (v : Value) : list Value :=
  match v with array l => l | _ => [] end.

(** [std::set<Json::Value>] filled by inserting the elements one by one:
    one copy of each distinct value is kept. *)
Definition set_of (l : list Value) : list Value := remove_dups l.

(** [std::set_difference]: the members of the first set that are not in the
    second. *)
Definition set_difference (a b : list Value) : list Value :=
  list_difference a b.

(** [check(src, dst)]: the number of times [checkErr] is reached, that is
    the number of failed [BOOST_CHECK]s. *)
Fixpoint check (src dst : Value) {struct src} : nat :=
  if decide (type src ≠ type dst) then 1%nat
  else
    match src with
    | object srcMembers =>
        let dstMembers := members_of dst in
        (map_fold (λ member v errs,
             errs + match dstMembers !! member with
                    | None => 1
                    | Some d => check v d
                    end) 0 srcMembers
         + map_fold (λ member _ errs,
             errs + match srcMembers !! member with
                    | None => 1
                    | Some _ => 0
                    end) 0 dstMembers)%nat
    | array srcElems =>
        let dstElems := elems_of dst in
        let srcSet := set_of srcElems in
        let dstSet := set_of dstElems in
        ((if decide (length srcElems ≠ length dstElems) then 1 else 0)
         + length (set_difference srcSet dstSet)
         + length (set_difference dstSet srcSet))%nat
    | _ => if decide (src ≠ dst) then 1%nat else 0%nat
    end.

(** A document without arrays, at any depth. *)
Fixpoint array_free (v : Value) : bool :=
  match v with
  | array _ => false
  | object m => map_fold (λ _ x acc, array_free x && acc) true m
  | _ => true
  end.

End Json.

(** ** The bid request synthesizer

    [bid_request_synth.h] and its implementation are not among the sources;
    the test harness only calls [record], [generate], [dump] and [load]. The
    definitions of this module follow the specification of the component. *)

Module Synth.

Import Json.

(** Modelled from the spec: the leaf payload of [BidRequestSynth], one
    scalar with its type tag (boolean, signed integer, unsigned integer,
    floating point, text). A null is neither a sequence nor a mapping and is
    kept as a scalar too. *)
Inductive Scalar :=
| SNull
| SInt (i : Z)
| SUInt (u : N)
| SReal (r : Qcanon.Qc)
| SStr (s : string)
| SBool (b : bool).

(** Modelled from the spec: the Value Model node of [BidRequestSynth], a
    variant over Leaf, Object (field name to child) and Array (the one
    child shared by all elements, absent until a first element is merged). *)
#[warnings="-register-all"]
Inductive Node :=
| Leaf (s : Scalar)
| Object (fields : gmap string Node)
| Array (child : option Node).

Global Instance Scalar_eq_dec : EqDecision Scalar.
Proof. solve_decision. Defined.

Global Instance Node_eq_dec : EqDecision Node.
Proof.
  refine (fix go (x y : Node) {struct x} : Decision (x = y) :=
    let _ : EqDecision Node := go in
    match x, y with
    | Leaf a, Leaf b => cast_if (decide (a = b))
    | Object a, Object b => cast_if (decide (a = b))
    | Array a, Array b => cast_if (decide (a = b))
    | _, _ => right _
    end); abstract congruence.
Defined.

Fixpoint node_size (n : Node) : nat :=
  match n with
  | Leaf _ => 1%nat
  | Object fs => S (map_fold (λ _ c acc, node_size c + acc)%nat 0%nat fs)
  | Array c => S (match c with Some c' => node_size c' | None => 0%nat end)
  end.

(** Modelled from the spec: the model of [BidRequestSynth] is its root
    node, created by the first [record]. *)
Abbreviation Model := (option Node).

Definition value_of (s : Scalar) : Value :=
  match s with
  | SNull => null
  | SInt i => int i
  | SUInt u => uint u
  | SReal r => real r
  | SStr s => str s
  | SBool b => boolean b
  end.

(** The fields of an existing Object node and the child of an existing
    Array node; a node of another kind, or no node, contributes nothing
    (the incoming kind replaces it wholesale). *)
Definition fields_of (n : option Node) : gmap string Node :=
  match n with Some (Object fs) => fs | _ => ∅ end.
Definition child_of (n : option Node) : option Node :=
  match n with Some (Array c) => c | _ => None end.

(** Modelled from the spec: the merge algorithm of [BidRequestSynth]
    (section 4.1). A scalar becomes the leaf; every field of an incoming
    object is merged into the child of that name, the other fields are left
    alone; every element of an incoming array is merged, one at a time, into
    the single child. *)
Fixpoint merge (n : option Node) (v : Value) {struct v} : Node :=
  match v with
  | null => Leaf SNull
  | int i => Leaf (SInt i)
  | uint u => Leaf (SUInt u)
  | real r => Leaf (SReal r)
  | str s => Leaf (SStr s)
  | boolean b => Leaf (SBool b)
  | object ms =>
      Object (map_fold (λ k v' fs, <[k := merge (fs !! k) v']> fs)
                (fields_of n) ms)
  | array l => Array (foldl (λ c v', Some (merge c v')) (child_of n) l)
  end.

(** Modelled from the spec: [BidRequestSynth::record], the merge of the
    document into the root. *)
Definition record (m : Model) (doc : Value) : Model := Some (merge m doc).

(** Modelled from the spec: the generator of [BidRequestSynth] (section
    4.2). A leaf emits its value, an object one entry per known field, an
    array exactly one element, the generation of its child; where there is
    nothing to walk the result is null. *)
Fixpoint generate_node (n : Node) : Value :=
  match n with
  | Leaf s => value_of s
  | Object fs => object (generate_node <$> fs)
  | Array c =>
      array [match c with Some c' => generate_node c' | None => null end]
  end.

(** Modelled from the spec: [BidRequestSynth::generate]; the empty model
    generates null. *)
Definition generate (m : Model) : Value :=
  match m with Some n => generate_node n | None => null end.

(** *** Positions *)

(** Modelled from the spec: a position (glossary), a path of object-field
    and array-membership steps from the root. *)
Inductive Step := Field (k : string) | Elem.
Abbreviation Position := (list Step).

(** The values a document holds at a position: one along object fields,
    one per element along array membership. *)
Fixpoint values_at (p : Position) (v : Value) : list Value :=
  match p with
  | [] => [v]
  | Field k :: p' =>
      match members_of v !! k with
      | Some v' => values_at p' v'
      | None => []
      end
  | Elem :: p' => concat (map (values_at p') (elems_of v))
  end.

(** The node of the model at a position. *)
Fixpoint node_at (p : Position) (n : option Node) : option Node :=
  match p with
  | [] => n
  | Field k :: p' => node_at p' (fields_of n !! k)
  | Elem :: p' => node_at p' (child_of n)
  end.

(** The values merged at one position, in order, starting from the node
    that was there. *)
Definition merge_all (n : option Node) (vs : list Value) : option Node :=
  foldl (λ c v, Some (merge c v)) n vs.

(** The values merged at a position [p] all have the kind the position
    asks for: objects before a field step, arrays before an element step and
    at the position itself. [vs] are the values merged at the start of the
    path, in order. *)
Fixpoint uniform (p : Position) (vs : list Value) : Prop :=
  match p with
  | [] => Forall (λ v, type v = arrayValue) vs
  | Field k :: p' =>
      Forall (λ v, type v = objectValue) vs
      ∧ uniform p' (omap (λ v, members_of v !! k) vs)
  | Elem :: p' =>
      Forall (λ v, type v = arrayValue) vs
      ∧ uniform p' (concat (map elems_of vs))
  end.

(** *** The codec *)

Abbreviation Text := (list ascii).

Definition lit (s : string) : Text := String.list_ascii_of_string s.

(** Decimal digits. *)
Fixpoint enc_uint (d : Decimal.uint) : Text :=
  match d with
  | Decimal.Nil => []
  | Decimal.D0 d => "0"%char :: enc_uint d
  | Decimal.D1 d => "1"%char :: enc_uint d
  | Decimal.D2 d => "2"%char :: enc_uint d
  | Decimal.D3 d => "3"%char :: enc_uint d
  | Decimal.D4 d => "4"%char :: enc_uint d
  | Decimal.D5 d => "5"%char :: enc_uint d
  | Decimal.D6 d => "6"%char :: enc_uint d
  | Decimal.D7 d => "7"%char :: enc_uint d
  | Decimal.D8 d => "8"%char :: enc_uint d
  | Decimal.D9 d => "9"%char :: enc_uint d
  end.

Definition digit (c : ascii) : option (Decimal.uint → Decimal.uint) :=
  if decide (c = "0"%char) then Some Decimal.D0
  else if decide (c = "1"%char) then Some Decimal.D1
  else if decide (c = "2"%char) then Some Decimal.D2
  else if decide (c = "3"%char) then Some Decimal.D3
  else if decide (c = "4"%char) then Some Decimal.D4
  else if decide (c = "5"%char) then Some Decimal.D5
  else if decide (c = "6"%char) then Some Decimal.D6
  else if decide (c = "7"%char) then Some Decimal.D7
  else if decide (c = "8"%char) then Some Decimal.D8
  else if decide (c = "9"%char) then Some Decimal.D9
  else None.

Fixpoint dec_uint (s : Text) : Decimal.uint * Text :=
  match s with
  | c :: s' =>
      match digit c with
      | Some D => let '(d, rest) := dec_uint s' in (D d, rest)
      | None => (Decimal.Nil, s)
      end
  | [] => (Decimal.Nil, [])
  end.

(** The text left after a number does not go on with a digit. *)
Definition stops (rest : Text) : Prop :=
  match rest with
  | c :: _ => digit c = None
  | [] => True
  end.

Definition enc_N (n : N) : Text := enc_uint (N.to_uint n).
Definition dec_N (s : Text) : option (N * Text) :=
  let '(d, rest) := dec_uint s in
  match d with
  | Decimal.Nil => None
  | _ => Some (N.of_uint d, rest)
  end.

Definition enc_Z (z : Z) : Text :=
  match z with
  | Zneg p => "-"%char :: enc_N (Npos p)
  | _ => enc_N (Z.to_N z)
  end.
Definition dec_Z (s : Text) : option (Z * Text) :=
  match s with
  | c :: s' =>
      if decide (c = "-"%char)
      then '(n, rest) ← dec_N s'; Some (- Z.of_N n, rest)
      else '(n, rest) ← dec_N s; Some (Z.of_N n, rest)
  | [] => None
  end.

(** Quoted text: the quote and the backslash are escaped by a backslash. *)
Definition dquote : ascii := "034"%char.
Definition backslash : ascii := "092"%char.

Fixpoint escape (s : Text) : Text :=
  match s with
  | [] => []
  | c :: s' =>
      if decide (c = dquote ∨ c = backslash) then backslash :: c :: escape s'
      else c :: escape s'
  end.

Fixpoint unescape (s : Text) : option (Text * Text) :=
  match s with
  | [] => None
  | c :: s' =>
      if decide (c = dquote) then Some ([], s')
      else if decide (c = backslash) then
        match s' with
        | c' :: s'' => '(t, rest) ← unescape s''; Some (c' :: t, rest)
        | [] => None
        end
      else '(t, rest) ← unescape s'; Some (c :: t, rest)
  end.

Definition enc_string (s : string) : Text :=
  dquote :: escape (String.list_ascii_of_string s) ++ [dquote].
Definition dec_string (s : Text) : option (string * Text) :=
  match s with
  | c :: s' =>
      if decide (c = dquote)
      then '(t, rest) ← unescape s'; Some (String.string_of_list_ascii t, rest)
      else None
  | [] => None
  end.

(** Strip a literal from the front of the text. *)
Definition expect (l s : Text) : option Text :=
  if decide (take (length l) s = l) then Some (drop (length l) s) else None.

(** A tagged value: [{"tag":payload}]. *)
Definition tagged (tag : string) (payload : Text) : Text :=
  lit "{" ++ enc_string tag ++ lit ":" ++ payload ++ lit "}".

Definition enc_scalar (s : Scalar) : Text :=
  match s with
  | SNull => tagged "null" (lit "0")
  | SInt i => tagged "int" (enc_Z i)
  | SUInt u => tagged "uint" (enc_N u)
  | SReal r =>
      tagged "real"
        (lit "[" ++ enc_Z (QArith_base.Qnum (Qcanon.this r)) ++ lit ","
         ++ enc_N (Npos (QArith_base.Qden (Qcanon.this r))) ++ lit "]")
  | SStr s => tagged "str" (enc_string s)
  | SBool b => tagged "bool" (lit (if b then "1" else "0"))
  end.

(** The fields of an object, already encoded, between braces. *)
Fixpoint enc_fields (l : list (string * Text)) : Text :=
  match l with
  | [] => lit "}"
  | (k, c) :: l' =>
      enc_string k ++ lit ":" ++ c
      ++ match l' with
         | [] => lit "}"
         | _ :: _ => lit "," ++ enc_fields l'
         end
  end.

(** Modelled from the spec: the text form of a node written by
    [BidRequestSynth::dump] (section 4.3): JSON text that tags every leaf
    with its type, lists every field of an object and keeps the one child of
    an array. *)
Fixpoint enc_node (n : Node) : Text :=
  match n with
  | Leaf s => enc_scalar s
  | Object fs =>
      tagged "obj" (lit "{" ++ enc_fields (map_to_list (enc_node <$> fs)))
  | Array c =>
      tagged "arr"
        (lit "[" ++ match c with Some c' => enc_node c' | None => [] end
         ++ lit "]")
  end.

(** Modelled from the spec: [BidRequestSynth::dump]. *)
Definition dump (m : Model) : Text :=
  match m with Some n => enc_node n | None => lit "null" end.

Definition dec_payload (tag : string) (s : Text) : option (Scalar * Text) :=
  if decide (tag = "null") then s ← expect (lit "0") s; Some (SNull, s)
  else if decide (tag = "int") then '(i, s) ← dec_Z s; Some (SInt i, s)
  else if decide (tag = "uint") then '(u, s) ← dec_N s; Some (SUInt u, s)
  else if decide (tag = "real") then
    s ← expect (lit "[") s;
    '(n, s) ← dec_Z s;
    s ← expect (lit ",") s;
    '(d, s) ← dec_N s;
    s ← expect (lit "]") s;
    match d with
    | Npos d => Some (SReal (Qcanon.Q2Qc (QArith_base.Qmake n d)), s)
    | N0 => None
    end
  else if decide (tag = "str") then '(t, s) ← dec_string s; Some (SStr t, s)
  else if decide (tag = "bool") then
    match expect (lit "1") s with
    | Some s => Some (SBool true, s)
    | None => s ← expect (lit "0") s; Some (SBool false, s)
    end
  else None.

(** Modelled from the spec: the parser behind [BidRequestSynth::load], a
    recursive descent over the text form; [fuel] bounds the nesting. *)
Fixpoint dec_node (fuel : nat) (s : Text) : option (Node * Text) :=
  match fuel with
  | O => None
  | S fuel' =>
      s ← expect (lit "{") s;
      '(tag, s) ← dec_string s;
      s ← expect (lit ":") s;
      '(n, s) ←
        (if decide (tag = "obj") then
           s ← expect (lit "{") s;
           '(fs, s) ← dec_fields fuel' s;
           Some (Object fs, s)
         else if decide (tag = "arr") then
           s ← expect (lit "[") s;
           match expect (lit "]") s with
           | Some s => Some (Array None, s)
           | None =>
               '(c, s) ← dec_node fuel' s;
               s ← expect (lit "]") s;
               Some (Array (Some c), s)
           end
         else '(sc, s) ← dec_payload tag s; Some (Leaf sc, s));
      s ← expect (lit "}") s;
      Some (n, s)
  end
with dec_fields (fuel : nat) (s : Text) : option (gmap string Node * Text) :=
  match fuel with
  | O => None
  | S fuel' =>
      match expect (lit "}") s with
      | Some s => Some (∅, s)
      | None =>
          '(k, s) ← dec_string s;
          s ← expect (lit ":") s;
          '(c, s) ← dec_node fuel' s;
          match expect (lit ",") s with
          | Some s => '(fs, s) ← dec_fields fuel' s; Some (<[k := c]> fs, s)
          | None => s ← expect (lit "}") s; Some (<[k := c]> ∅, s)
          end
      end
  end.

(** Modelled from the spec: the decoding step of [BidRequestSynth::load].
    The whole text is parsed, and it must be the text [dump] writes for the
    result. *)
Definition decode (s : Text) : option Model :=
  if decide (s = lit "null") then Some None
  else
    match dec_node (length s) s with
    | Some (n, []) => if decide (enc_node n = s) then Some (Some n) else None
    | _ => None
    end.

Inductive LoadResult := Loaded | DecodeError.

(** Modelled from the spec: [BidRequestSynth::load] (sections 4.3 and 7).
    The text is parsed whole and must be the canonical text of the model it
    denotes; the model is replaced only when that succeeds. *)
Definition load (source : Text) (m : Model) : LoadResult * Model :=
  match decode source with
  | Some m' => (Loaded, m')
  | None => (DecodeError, m)
  end.

(** A text that is the text form of no model, and a text that is a
    proper beginning of the text form of a model. *)
Definition corrupt (s : Text) : Prop := ∀ m, s ≠ dump m.
Definition truncated (s : Text) : Prop :=
  ∃ m t, t ≠ [] ∧ dump m = s ++ t.

(** *** The operations as transitions of the model *)

Inductive Op :=
| OpRecord (doc : Value)
| OpGenerate
| OpDump
| OpLoad (source : Text).

Inductive Output :=
| OutNone
| OutDocument (doc : Value)
| OutText (t : Text)
| OutLoad (r : LoadResult).

(** Modelled from the spec: the four operations of [BidRequestSynth]
    (section 2) as transitions of the model, the only mutable state. *)
Definition step (m : Model) (op : Op) : Model * Output :=
  match op with
  | OpRecord doc => (record m doc, OutNone)
  | OpGenerate => (m, OutDocument (generate m))
  | OpDump => (m, OutText (dump m))
  | OpLoad source => let '(r, m') := load source m in (m', OutLoad r)
  end.

(** The outputs of a sequence of operations, in order. *)
Fixpoint run (m : Model) (ops : list Op) : Model * list Output :=
  match ops with
  | [] => (m, [])
  | op :: ops' =>
      let '(m1, o) := step m op in
      let '(m2, os) := run m1 ops' in
      (m2, o :: os)
  end.

(** *** The documents of the test cases *)

Definition leafs_doc : Value :=
  object {[ "bool" := boolean true;
            "int" := int 123;
            "ull" := int (-4123576534534);
            "float" := real (Qcanon.Q2Qc (QArith_base.Qmake 247 2));
            "str" := str "This is a string and it's awesome" ]}.
Definition ints_doc : Value :=
  object {[ "ints" := array [int 123; int 12345; int 23; int 1512] ]}.
Definition conflict_doc : Value :=
  object {[ "m" := array [array [int 1; int 2]; int 5] ]}.
Definition object_doc : Value :=
  object {[ "obj" :=
    object {[ "nested" := object {[ "a" := int 1; "b" := int 2;
                                    "c" := int 3 ]};
              "wee" := array [int 1];
              "bleh" := str "For the gloop!" ]} ]}.
Definition array_doc : Value :=
  object {[ "ints" := array [int 123; int 12345; int 23; int 1512];
            "strings" := array [str "bob"; str "oob"; str "bleh"];
            "objs" := array [object {[ "a" := int 1 ]};
                             object {[ "b" := int 2 ]};
                             object {[ "c" := int 3 ]};
                             object {[ "d" := int 4 ]}];
            "matrix" := array [array [int 123; int 231];
                               array [int 412; int 231];
                               array [int 2451; int 25123]] ]}.

End Synth.

(** ** Facts about the REST proxy *)

Module RestFacts.

Import Rest.

Section Proxy.

Variable h : Header.

Abbreviation perform := (Rest.perform h).
Abbreviation putOrPost_loop := (Rest.putOrPost_loop h).
Abbreviation putOrPost := (Rest.putOrPost h).

Abbreviation request_opts := (Rest.request_opts h).

Local Arguments perform_opts : simpl never.
Local Arguments delivered : simpl never.
Local Arguments maxSlot : simpl never.
Local Arguments first_error : simpl never.

Lemma schedule_app tr1 tr2 : schedule (tr1 ++ tr2) = schedule tr1 ++ schedule tr2.
Proof. unfold schedule. by rewrite map_app, concat_app. Qed.

Lemma backoff_from_app from n m :
  backoff_from from n ++ backoff_from (from + n) m = backoff_from from (n + m).
Proof. unfold backoff_from. by rewrite seq_app, map_app, concat_app. Qed.

Lemma maxSlot_exponential j : 0 ≤ j ≤ 30 → maxSlot j = 2 ^ j - 1.
Proof.
  intros Hj. unfold maxSlot, wrap_int. rewrite Z.shiftl_1_l.
  assert (0 < 2 ^ j ≤ 2 ^ 30) as Hp.
  { split; [apply Z.pow_pos_nonneg; lia|apply Z.pow_le_mono_r; lia]. }
  change (2 ^ 30) with 1073741824 in Hp.
  change (2 ^ 31) with 2147483648. change (2 ^ 32) with 4294967296.
  rewrite (Z.mod_small (2 ^ j + 2147483648)) by lia.
  rewrite Z.mod_small by lia. lia.
Qed.


(** The report of the first failure is neither an attempt nor a sleep. *)
Lemma first_error_silent resource body verb code retries response ev1 :
  first_error h resource body verb code retries response = Return ev1 →
  schedule ev1 = [].
Proof.
  unfold first_error. case_bool_decide; [|by intros [= <-]].
  destruct (Response_body h response); [|done..]. by intros [= <-].
Qed.

Lemma perform_events p verb resource content qp hs timeout exceptions reply :
  (perform p verb resource content qp hs timeout exceptions reply).2
  = [EvPerform (perform_opts h p verb resource content qp hs timeout)].
Proof. unfold Rest.perform. by destruct reply, exceptions. Qed.

Lemma perform_delivered p verb resource content qp hs timeout exceptions st hl ch :
  (perform p verb resource content qp hs timeout exceptions
     (Delivered st hl ch)).1
  = Return (delivered h st hl ch).
Proof. reflexivity. Qed.

Lemma perform_outcome p verb resource content qp hs timeout exceptions reply :
  (∃ r, (perform p verb resource content qp hs timeout exceptions reply).1
        = Return r)
  ∨ (∃ c, (perform p verb resource content qp hs timeout exceptions reply).1
          = Throw (LibcurlRuntimeError c)).
Proof. unfold Rest.perform. destruct reply, exceptions; eauto. Qed.

Lemma loop_exit p resource body isPost net rnd fuel retries response :
  ¬ (retries < maxRetries p)%nat →
  putOrPost_loop p resource body isPost net rnd fuel retries response
  = (Return response, []).
Proof. intros Hge. destruct fuel; simpl; by rewrite bool_decide_eq_false_2. Qed.

(** One turn of the loop while attempts are left; the inner test on
    [retries] has gone, since it repeats the loop condition. *)
Lemma loop_turn p resource body isPost net rnd fuel retries response0 :
  (retries < maxRetries p)%nat →
  putOrPost_loop p resource body isPost net rnd (S fuel) retries response0
  = let verb := if isPost then "POST" else "PUT" in
    let ev := [EvPerform (request_opts p resource body isPost)] in
    match (perform p verb resource (Content_of h body "application/json") []
             (putOrPost_headers p) (default_timeout h) (default_exceptions h)
             (net retries)).1 with
    | Return response =>
        if bool_decide (code response < 400) then (Return response, ev)
        else
          match first_error h resource body verb (code response) retries
                  response with
          | Return ev1 =>
              if bool_decide (code response < 500)
              then (Throw Unrecoverable, ev ++ ev1)
              else
                let '(res, evs) :=
                  putOrPost_loop p resource body isPost net rnd fuel
                    (S retries) response in
                (res, ev ++ ev1
                      ++ [EvSleep (Z.of_nat retries) (rnd retries)
                            (maxSlot (Z.of_nat retries));
                          EvRetrying verb resource (retries + 1)
                            (maxRetries p)]
                      ++ evs)
          | Throw e => (Throw e, ev)
          | OutOfFuel => (OutOfFuel, ev)
          end
    | Throw e => (Throw e, ev)
    | OutOfFuel => (OutOfFuel, ev)
    end.
Proof.
  intros Hlt. cbn [Rest.putOrPost_loop]. rewrite bool_decide_eq_true_2 by done.
  pose proof (perform_events p (if isPost then "POST" else "PUT") resource
                (Content_of h body "application/json") []
                (putOrPost_headers p) (default_timeout h)
                (default_exceptions h) (net retries)) as Hev.
  destruct (Rest.perform _ _ _ _ _ _ _ _ _ _) as [[response|e|] ev].
  all: cbn [fst snd] in *; by subst ev.
Qed.

Lemma loop_out_of_fuel p resource body isPost net rnd retries response :
  (retries < maxRetries p)%nat →
  putOrPost_loop p resource body isPost net rnd 0 retries response
  = (OutOfFuel, []).
Proof. intros Hlt. simpl. by rewrite bool_decide_eq_true_2. Qed.

Local Opaque Rest.putOrPost_loop.

Lemma attempt_delivered p resource body isPost net k st hl ch :
  net k = Delivered st hl ch →
  attempt h p resource body isPost net k = Return (delivered h st hl ch).
Proof. intros Hnet. unfold attempt. by rewrite Hnet. Qed.

Lemma body_returns_first_report p resource body isPost net :
  body_returns h → first_report_returns h p resource body isPost net.
Proof. intros Hbody resp _ _. apply Hbody. Qed.

(** The report of a failure goes through at every attempt, once [body()]
    returns for the first: the later attempts do not call it. *)
Lemma first_error_returns p resource body isPost net retries resp :
  first_report_returns h p resource body isPost net →
  attempt h p resource body isPost net retries = Return resp →
  400 ≤ code resp →
  ∃ ev1, first_error h resource body (if isPost then "POST" else "PUT")
           (code resp) retries resp = Return ev1.
Proof.
  intros Hfirst Hatt Hc. unfold first_error.
  case_bool_decide as Hr; [|by eexists].
  subst retries. destruct (Hfirst resp Hatt Hc) as [b ->]. by eexists.
Qed.



Lemma loop_retry p resource body isPost net rnd fuel retries response :
  first_report_returns h p resource body isPost net →
  (retries < maxRetries p)%nat →
  server_error (net retries) →
  ∃ response' pre,
    putOrPost_loop p resource body isPost net rnd (S fuel) retries response
    = (let '(res, tr) :=
         putOrPost_loop p resource body isPost net rnd fuel (S retries)
           response' in
       (res, pre ++ tr))
    ∧ schedule pre = backoff_from retries 1
    ∧ (∀ st hl ch, net retries = Delivered st hl ch →
         response' = delivered h st hl ch).
Proof.
  intros Hfirst Hlt (st & hl & ch & Hnet & Hst). rewrite loop_turn by done.
  rewrite Hnet. cbn zeta. rewrite perform_delivered.
  assert (400 ≤ st) as Hst' by lia.
  destruct (first_error_returns p resource body isPost net retries
              (delivered h st hl ch) Hfirst
              (attempt_delivered _ _ _ _ _ _ _ _ _ Hnet) Hst')
    as [ev1 Hev1].
  change (code (delivered h st hl ch)) with st in *.
  rewrite !bool_decide_eq_false_2 by lia.
  rewrite Hev1.
  exists (delivered h st hl ch).
  destruct (putOrPost_loop p resource body isPost net rnd fuel (S retries)
              (delivered h st hl ch)) as [res tr].
  exists ([EvPerform (request_opts p resource body isPost)] ++ ev1
          ++ [EvSleep (Z.of_nat retries) (rnd retries)
                (maxSlot (Z.of_nat retries));
              EvRetrying (if isPost then "POST" else "PUT") resource
                (retries + 1) (maxRetries p)]).
  split.
  { f_equal. rewrite <-(app_assoc [EvPerform _]). f_equal.
    by rewrite <-(app_assoc ev1). }
  split.
  - rewrite !schedule_app, (first_error_silent _ _ _ _ _ _ _ Hev1). done.
  - by intros ??? [= -> -> ->].
Qed.

(** [d] server errors in a row cost [d] attempts and [d] sleeps, and leave
    the loop at attempt [retries + d] with the last response. *)
Lemma loop_server_errors p resource body isPost net rnd d :
  first_report_returns h p resource body isPost net →
  ∀ fuel retries response,
  (retries + d ≤ maxRetries p)%nat →
  (d ≤ fuel)%nat →
  (∀ j, (retries ≤ j < retries + d)%nat → server_error (net j)) →
  ∃ response' pre,
    putOrPost_loop p resource body isPost net rnd fuel retries response
    = (let '(res, tr) :=
         putOrPost_loop p resource body isPost net rnd (fuel - d)
           (retries + d) response' in
       (res, pre ++ tr))
    ∧ schedule pre = backoff_from retries d
    ∧ (d = 0%nat → response' = response)
    ∧ (∀ st hl ch, (0 < d)%nat →
         net (retries + d - 1)%nat = Delivered st hl ch →
         response' = delivered h st hl ch).
Proof.
  intros Hfirst.
  induction d as [|d IH]; intros fuel retries response Hmax Hfuel Herr.
  - exists response, []. rewrite Nat.sub_0_r, Nat.add_0_r.
    split; [by destruct (putOrPost_loop _ _ _ _ _ _ _ _ _)|].
    split; [done|]. split; [done|]. intros; lia.
  - destruct fuel as [|fuel]; [lia|].
    destruct (loop_retry p resource body isPost net rnd fuel retries response)
      as (r1 & pre1 & Heq1 & Hs1 & Hr1); [done|lia|apply Herr; lia|].
    destruct (IH fuel (S retries) r1) as (r2 & pre2 & Heq2 & Hs2 & Hz2 & Hr2);
      [lia|lia|intros; apply Herr; lia|].
    exists r2, (pre1 ++ pre2). split.
    { rewrite Heq1, Heq2.
      replace (S retries + d)%nat with (retries + S d)%nat by lia.
      cbn [Nat.sub].
      destruct (putOrPost_loop p resource body isPost net rnd (fuel - d)
                  (retries + S d) r2).
      by rewrite app_assoc. }
    split.
    { rewrite schedule_app, Hs1, Hs2.
      replace (S retries) with (retries + 1)%nat by lia.
      by rewrite (backoff_from_app retries 1 d). }
    split; [lia|]. intros st hl ch _ Hnet.
    destruct d as [|d].
    + rewrite Hz2 by done. apply Hr1.
      by replace retries with (retries + 1 - 1)%nat by lia.
    + apply Hr2; [lia|]. by replace (S retries + S d - 1)%nat
        with (retries + S (S d) - 1)%nat by lia.
Qed.







Lemma loop_performs p resource body isPost net rnd fuel :
  ∀ retries response opts,
  EvPerform opts
    ∈ (putOrPost_loop p resource body isPost net rnd fuel retries response).2 →
  opts = request_opts p resource body isPost.
Proof.
  induction fuel as [|fuel IH]; intros retries response opts;
    destruct (decide (retries < maxRetries p)%nat) as [Hlt|Hge];
    try (rewrite loop_exit by done; by intros ?%elem_of_nil).
  - rewrite loop_out_of_fuel by done. by intros ?%elem_of_nil.
  - rewrite loop_turn by done. cbn zeta.
    assert (∀ l, EvPerform opts
                   ∈ [EvPerform (request_opts p resource body isPost)] ++ l →
                 EvPerform opts ∈ l ∨ opts = request_opts p resource body isPost)
      as Hhd.
    { intros l [[= ->]|H']%elem_of_cons; auto. }
    destruct (perform _ _ _ _ _ _ _ _ _).1 as [resp|e|];
      [|by intros [= ->]%list_elem_of_singleton..].
    case_bool_decide; [by intros [= ->]%list_elem_of_singleton|].
    destruct (first_error h resource body _ (code resp) retries resp)
      as [ev1|e|] eqn:Hev1; [|by intros [= ->]%list_elem_of_singleton..].
    assert (EvPerform opts ∉ ev1) as Hno.
    { revert Hev1. unfold first_error. case_bool_decide.
      - destruct (Response_body h resp); [|done..].
        intros [= <-]. by intros ?%list_elem_of_singleton.
      - intros [= <-]. by intros ?%elem_of_nil. }
    case_bool_decide.
    { intros [H'|H']%Hhd; [done|done]. }
    specialize (IH (S retries) resp opts).
    destruct (putOrPost_loop _ _ _ _ _ _ fuel _ _) as [res tr].
    cbn [fst snd] in *.
    intros [H'|H']%Hhd; [|done].
    apply elem_of_app in H' as [H'|H']; [done|].
    apply elem_of_cons in H' as [H'|H']; [done|].
    apply elem_of_cons in H' as [H'|H']; [done|]. auto.
Qed.

Lemma header_lines_perform p verb resource content qp hs timeout :
  header_lines (EvPerform (perform_opts h p verb resource content qp
                             hs timeout))
  = curlHeaders content hs.
Proof.
  unfold header_lines, perform_opts.
  rewrite !map_app, !concat_app.
  assert (concat (map (λ o, match o with HttpHeader ls => ls | _ => [] end)
                    (map CookieList (cookies p))) = []) as ->.
  { induction (cookies p); simpl; auto. }
  destruct (debug p), (noSSLChecks p), (data content), timeout; simpl;
    by rewrite ?app_nil_r.
Qed.

Lemma token_nonempty tok : (0 < String.length tok)%nat ↔ tok ≠ "".
Proof. destruct tok; simpl; split; intros; (done || lia). Qed.

(** C8. The token goes out as a cookie exactly when there is one. Every
    request that [putOrPost] performs carries the header line
    [Cookie: token="<authToken>"] if and only if [authToken] is not empty,
    and with an empty [authToken] none of its header lines is a [Cookie]
    line; [get] hands [HttpRestProxy::get] the header named [Cookie] with
    the value [token="<authToken>"] if and only if [authToken] is not empty,
    and no header at all otherwise. *)
Theorem cookie_token_header p resource body isPost net rnd :
  (∀ opts,
     EvPerform opts ∈ (putOrPost p resource body isPost net rnd).2 →
     (cookie_line (authToken p) ∈ header_lines (EvPerform opts)
      ↔ authToken p ≠ "")
     ∧ (authToken p = "" →
        ∀ l, l ∈ header_lines (EvPerform opts) →
             String.prefix "Cookie:" l = false))
  ∧ (∃ headers,
       Rest.get h p resource = HttpRestProxy_get h p resource [] headers
       ∧ (("Cookie", cookie_value (authToken p)) ∈ headers
          ↔ authToken p ≠ "")
       ∧ (authToken p = "" → headers = [])).
Proof.
  split.
  - intros opts ->%loop_performs. unfold request_opts.
    rewrite header_lines_perform.
    unfold curlHeaders, putOrPost_headers.
    case_decide as Htok; rewrite token_nonempty in Htok.
    + split; [|done]. split; [done|]. intros _. by left.
    + apply dec_stable in Htok. rewrite Htok. cbn [map app]. split.
      * split; [|done].
        destruct (data _); rewrite ?elem_of_cons, ?elem_of_nil;
          intros H'; decompose [or] H'; done.
      * intros _ l.
        destruct (data _); rewrite ?elem_of_cons, ?elem_of_nil;
          intros H'; decompose [or] H'; by subst.
  - exists (get_headers p). split; [done|]. unfold get_headers.
    case_decide as Htok; rewrite token_nonempty in Htok.
    + split; [|done]. split; [done|]. intros _. by left.
    + apply dec_stable in Htok. split; [|done].
      split; [by intros ?%elem_of_nil|done].
Qed.

Lemma after_noSSLChecks p p' :
  after p p' → noSSLChecks p = true → noSSLChecks p' = true.
Proof.
  induction 1 as [|p' posted _ IH]; [done|]. intros Hp.
  destruct posted; simpl; auto.
Qed.

Lemma perform_opts_ssl p verb resource content qp hs timeout :
  noSSLChecks p = true →
  let opts := perform_opts h p verb resource content qp hs timeout in
  (SslVerifyHost false ∈ opts) ∧ (SslVerifyPeer false ∈ opts)
  ∧ (SslVerifyHost true ∉ opts) ∧ (SslVerifyPeer true ∉ opts).
Proof.
  intros Hssl. unfold perform_opts. rewrite Hssl.
  repeat split;
    rewrite ?elem_of_app, ?elem_of_cons, ?elem_of_nil, ?list_elem_of_fmap.
  - do 5 right. left. by left.
  - do 5 right. left. right. by left.
  - intros H; destruct (debug p), (data content), timeout;
      rewrite ?elem_of_cons, ?elem_of_nil in H;
      decompose [or and ex] H; done.
  - intros H; destruct (debug p), (data content), timeout;
      rewrite ?elem_of_cons, ?elem_of_nil in H;
      decompose [or and ex] H; done.
Qed.

Lemma perform_opts_ssl_last p verb resource content qp hs timeout log :
  noSSLChecks p = true →
  let opts := perform_opts h p verb resource content qp hs timeout in
  ssl_verify_host (log ++ opts) = Some false
  ∧ ssl_verify_peer (log ++ opts) = Some false.
Proof.
  intros Hssl opts. subst opts.
  unfold ssl_verify_host, ssl_verify_peer, perform_opts. rewrite Hssl.
  rewrite !omap_app.
  assert (∀ (f : CurlOption → option bool),
            (∀ c, f (CookieList c) = None) →
            omap f (map CookieList (cookies p)) = []) as Hcookies.
  { intros f Hf. induction (cookies p) as [|c cs IH]; [done|].
    simpl. by rewrite Hf. }
  rewrite !Hcookies by done.
  destruct (debug p), (data content), timeout; simpl;
    rewrite ?app_nil_r, ?last_snoc; auto.
Qed.

Lemma after_maxRetries p p' : after p p' → maxRetries p' = maxRetries p.
Proof. induction 1 as [|p' posted _ IH]; [done|]. by destruct posted. Qed.

Lemma ctor_ten_attempts url : maxRetries (JsonRestProxy_ctor h url) = 10%nat.
Proof. unfold JsonRestProxy_ctor. by case_decide. Qed.

Lemma loop_first_perform p resource body isPost net rnd fuel retries response :
  (retries < maxRetries p)%nat →
  EvPerform (request_opts p resource body isPost)
    ∈ (putOrPost_loop p resource body isPost net rnd (S fuel) retries
         response).2.
Proof.
  intros Hlt. rewrite loop_turn by done. cbn zeta.
  destruct (perform _ _ _ _ _ _ _ _ _).1 as [resp|e|]; [|by left..].
  case_bool_decide; [by left|].
  destruct (first_error _ _ _ _ _ _ _); [|by left..].
  case_bool_decide; [by left|].
  destruct (putOrPost_loop _ _ _ _ _ _ fuel _ _). by left.
Qed.

(** C10. A proxy built for a URL that begins with [https://] has
    [noSSLChecks] set, and keeps it through its own methods. Every
    [perform] on it sets the options of the handle, among them
    [SslVerifyHost] and [SslVerifyPeer] to false and never to true, so that
    both checks are off on the handle whatever was set on it before; and
    every call of [putOrPost] on it sends at least one request, each with
    these options. *)
Theorem https_disables_ssl_verification rest :
  let p := JsonRestProxy_ctor h ("https://" +:+ rest) in
  noSSLChecks p = true
  ∧ ∀ p', after p p' →
      noSSLChecks p' = true
      ∧ (∀ verb resource content qp hs timeout exceptions reply,
           ∃ opts,
             (perform p' verb resource content qp hs timeout exceptions
                reply).2 = [EvPerform opts]
             ∧ (SslVerifyHost false ∈ opts) ∧ (SslVerifyPeer false ∈ opts)
             ∧ (SslVerifyHost true ∉ opts) ∧ (SslVerifyPeer true ∉ opts)
             ∧ ∀ log, ssl_verify_host (log ++ opts) = Some false
                      ∧ ssl_verify_peer (log ++ opts) = Some false)
      ∧ (∀ resource body isPost net rnd,
           (∃ opts,
              EvPerform opts ∈ (putOrPost p' resource body isPost net rnd).2)
           ∧ ∀ opts,
               EvPerform opts ∈ (putOrPost p' resource body isPost net rnd).2 →
               (SslVerifyHost false ∈ opts) ∧ (SslVerifyPeer false ∈ opts)
               ∧ (SslVerifyHost true ∉ opts) ∧ (SslVerifyPeer true ∉ opts)
               ∧ ∀ log, ssl_verify_host (log ++ opts) = Some false
                        ∧ ssl_verify_peer (log ++ opts) = Some false).
Proof.
  intros p. assert (noSSLChecks p = true) as Hp.
  { subst p. unfold JsonRestProxy_ctor, find. simpl.
    rewrite decide_True; [done|]. by destruct rest. }
  split; [done|]. intros p' Hafter.
  pose proof (after_noSSLChecks p p' Hafter Hp) as Hp'.
  assert (maxRetries p' = 10%nat) as Hmax.
  { rewrite (after_maxRetries p p' Hafter). apply ctor_ten_attempts. }
  split; [done|]. split.
  - intros verb resource content qp hs timeout exceptions reply.
    exists (perform_opts h p' verb resource content qp hs timeout).
    split; [apply perform_events|].
    destruct (perform_opts_ssl p' verb resource content qp hs timeout Hp')
      as (H1 & H2 & H3 & H4).
    repeat (split; [done|]). intros log. by apply perform_opts_ssl_last.
  - intros resource body isPost net rnd. split.
    + exists (request_opts p' resource body isPost). unfold Rest.putOrPost.
      rewrite Hmax. apply loop_first_perform. lia.
    + intros opts ->%loop_performs.
      destruct (perform_opts_ssl p' (if isPost then "POST" else "PUT") resource
                  (Content_of h body "application/json") []
                  (putOrPost_headers p') (default_timeout h) Hp')
        as (H1 & H2 & H3 & H4).
      repeat (split; [done|]). intros log. by apply perform_opts_ssl_last.
Qed.

End Proxy.

Lemma plain_body_returns : body_returns plain_header.
Proof. intros r. by eexists. Qed.






Lemma cookie_token_header_witness :
  let opts := Rest.request_opts plain_header proxy3 "/bids" "{}" true in
  EvPerform opts
    ∈ (Rest.putOrPost plain_header proxy3 "/bids" "{}" true fails_twice
         (λ _, 7)).2
  ∧ cookie_line "s3cr3t" ∈ header_lines (EvPerform opts).
Proof.
  intros opts.
  assert (EvPerform opts
            ∈ (Rest.putOrPost plain_header proxy3 "/bids" "{}" true
                 fails_twice (λ _, 7)).2) as H by (vm_compute; left).
  split; [exact H|].
  apply (cookie_token_header plain_header proxy3 "/bids" "{}" true
           fails_twice (λ _, 7)); [exact H|done].
Defined.

Lemma https_disables_ssl_verification_witness :
  let p := JsonRestProxy_ctor plain_header "https://example.com" in
  after p p
  ∧ ∃ opts,
      (Rest.perform plain_header p "GET" "/bids" (mkContent None 0 "") [] []
         None true (CurlError 7)).2 = [EvPerform opts]
      ∧ (SslVerifyHost false ∈ opts) ∧ (SslVerifyPeer false ∈ opts).
Proof.
  intros p. split; [constructor|].
  pose proof (https_disables_ssl_verification plain_header "example.com")
    as [_ H].
  destruct (H p (after_ctor p)) as (_ & Hperform & _).
  destruct (Hperform "GET" "/bids" (mkContent None 0 "") [] [] None true
              (CurlError 7)) as (opts & Htr & Hhost & Hpeer & _).
  exists opts. split; [exact Htr|]. split; [exact Hhost|exact Hpeer].
Defined.

End RestFacts.

(** ** Facts about the document comparison *)

Module JsonFacts.

Import Json.

Lemma set_difference_empty (a b : list Value) :
  length (set_difference (set_of a) (set_of b)) = 0%nat ↔ ∀ x, x ∈ a → x ∈ b.
Proof.
  unfold set_difference, set_of. rewrite length_zero_iff_nil. split.
  - intros Hnil x Hx. destruct (decide (x ∈ b)) as [|Hnb]; [done|].
    assert (x ∈ list_difference (remove_dups a) (remove_dups b)) as Hin.
    { apply list_elem_of_difference. by rewrite !elem_of_remove_dups. }
    rewrite Hnil in Hin. by apply elem_of_nil in Hin.
  - intros Hsub. apply elem_of_nil_inv. intros x.
    rewrite list_elem_of_difference, !elem_of_remove_dups.
    intros [Ha Hnb]. by apply Hnb, Hsub.
Qed.

Lemma check_array (a b : list Value) :
  check (array a) (array b)
  = ((if decide (length a ≠ length b) then 1 else 0)
     + length (set_difference (set_of a) (set_of b))
     + length (set_difference (set_of b) (set_of a)))%nat.
Proof. reflexivity. Qed.

Lemma check_array_zero (a b : list Value) :
  check (array a) (array b) = 0%nat
  ↔ length a = length b ∧ ∀ x, x ∈ a ↔ x ∈ b.
Proof.
  rewrite check_array.
  pose proof (set_difference_empty a b) as Hab.
  pose proof (set_difference_empty b a) as Hba.
  case_decide as Hlen.
  - split; [lia|]. intros [? _]. done.
  - split.
    + intros Hz. split; [done|]. intros x. split.
      * apply Hab. lia.
      * apply Hba. lia.
    + intros [_ Hx].
      assert (length (set_difference (set_of a) (set_of b)) = 0%nat) as ->
        by (apply Hab; intros x; apply Hx).
      assert (length (set_difference (set_of b) (set_of a)) = 0%nat) as ->
        by (apply Hba; intros x; apply Hx).
      done.
Qed.

(** C1, as amended. [check] accepts two arrays exactly when they have the
    same number of elements and the same set of distinct elements; the
    order of the elements is ignored, and so two arrays with the same
    elements in the same multiplicities are accepted. *)
Theorem check_arrays_same_size_same_set (a b : list Value) :
  (check (array a) (array b) = 0%nat
   ↔ length a = length b ∧ ∀ x, x ∈ a ↔ x ∈ b)
  ∧ (a ≡ₚ b → check (array a) (array b) = 0%nat).
Proof.
  split; [apply check_array_zero|]. intros Hp. apply check_array_zero. split.
  - by apply Permutation_length.
  - intros x. by rewrite Hp.
Qed.

Lemma check_arrays_same_size_same_set_witness :
  [int 1; int 2; int 2] ≡ₚ [int 2; int 1; int 2]
  ∧ check (array [int 1; int 2; int 2]) (array [int 2; int 1; int 2])
    = 0%nat.
Proof.
  assert ([int 1; int 2; int 2] ≡ₚ [int 2; int 1; int 2]) as H
    by apply Permutation_swap.
  split; [exact H|].
  by apply (check_arrays_same_size_same_set [int 1; int 2; int 2]
              [int 2; int 1; int 2]).
Defined.

(** C1, as stated, fails: [[1,1,2]] and [[1,2,2]] are accepted although
    the multiplicities differ. *)
Lemma check_arrays_not_multiset :
  check (array [int 1; int 1; int 2]) (array [int 1; int 2; int 2]) = 0%nat
  ∧ ¬ ([int 1; int 1; int 2] ≡ₚ [int 1; int 2; int 2]).
Proof.
  split; [vm_compute; reflexivity|]. intros Hp.
  assert (length (filter (λ x, x = int 1) [int 1; int 1; int 2])
          = length (filter (λ x, x = int 1) [int 1; int 2; int 2])) as Hc
    by (by rewrite Hp).
  vm_compute in Hc. discriminate Hc.
Qed.

End JsonFacts.

(** ** Facts about the synthesizer *)

Module SynthFacts.

Import Json Synth.

(** *** Induction on values and nodes *)

Lemma map_fold_sum_lookup {A} (f : A → nat) (m : gmap string A) k x :
  m !! k = Some x →
  (f x ≤ map_fold (λ _ y acc, f y + acc) 0 m)%nat.
Proof.
  intros Hk.
  rewrite (map_fold_delete_L (λ _ y acc, f y + acc)%nat 0%nat k x m);
    [lia| |done].
  intros; lia.
Qed.

Lemma vsize_member m k v : m !! k = Some v → (vsize v < vsize (object m))%nat.
Proof.
  intros Hk. simpl. apply Nat.lt_succ_r.
  by apply (map_fold_sum_lookup vsize m k v).
Qed.

Lemma vsize_elem l v : v ∈ l → (vsize v < vsize (array l))%nat.
Proof.
  intros Hv. simpl. apply Nat.lt_succ_r.
  induction Hv as [|x y l _ IH]; simpl; lia.
Qed.

Lemma Value_ind' (P : Value → Prop) :
  (∀ v, is_scalar v = true → P v) →
  (∀ l, Forall P l → P (array l)) →
  (∀ m, map_Forall (λ _, P) m → P (object m)) →
  ∀ v, P v.
Proof.
  intros Hs Ha Ho v. remember (vsize v) as n eqn:Hn.
  revert v Hn. induction (lt_wf n) as [n _ IH]. intros v ->.
  destruct v; try (by apply Hs).
  - apply Ha, Forall_forall. intros x Hx.
    by apply (IH (vsize x)); [apply vsize_elem|].
  - apply Ho. intros k x Hk.
    by apply (IH (vsize x)); [apply (vsize_member _ k)|].
Qed.

Lemma node_size_field fs k c :
  fs !! k = Some c → (node_size c < node_size (Object fs))%nat.
Proof.
  intros Hk. simpl. apply Nat.lt_succ_r.
  by apply (map_fold_sum_lookup node_size fs k c).
Qed.

Lemma Node_ind' (P : Node → Prop) :
  (∀ s, P (Leaf s)) →
  (∀ fs, map_Forall (λ _, P) fs → P (Object fs)) →
  P (Array None) →
  (∀ c, P c → P (Array (Some c))) →
  ∀ n, P n.
Proof.
  intros Hl Ho Hn Ha n. remember (node_size n) as sz eqn:Hsz.
  revert n Hsz. induction (lt_wf sz) as [sz _ IH]. intros n ->.
  destruct n as [s|fs|[c|]]; auto.
  - apply Ho. intros k c Hk.
    by apply (IH (node_size c)); [apply (node_size_field _ k)|].
  - apply Ha. apply (IH (node_size c)); [simpl; lia|done].
Qed.

(** *** The comparison of documents *)

Lemma map_fold_errs_zero {A} (g : string → A → nat) (m : gmap string A) :
  map_fold (λ k v errs, errs + g k v)%nat 0%nat m = 0%nat
  ↔ map_Forall (λ k v, g k v = 0%nat) m.
Proof.
  apply (map_fold_weak_ind
           (λ r m, r = 0%nat ↔ map_Forall (λ k v, g k v = 0%nat) m)).
  - split; [intros _; apply map_Forall_empty|done].
  - intros i x m' r Hi IH. rewrite map_Forall_insert by done.
    rewrite <-IH. lia.
Qed.

Lemma check_object ms md :
  check (object ms) (object md) = 0%nat
  ↔ (∀ k v, ms !! k = Some v → ∃ d, md !! k = Some d ∧ check v d = 0%nat)
    ∧ (∀ k, is_Some (md !! k) → is_Some (ms !! k)).
Proof.
  change (check (object ms) (object md)) with
    (map_fold (λ member v errs,
         errs + match md !! member with
                | None => 1
                | Some d => check v d
                end) 0 ms
     + map_fold (λ member (_ : Value) errs,
         errs + match ms !! member with
                | None => 1
                | Some _ => 0
                end) 0 md)%nat.
  rewrite Nat.eq_add_0, !map_fold_errs_zero. split.
  - intros [H1 H2]. split.
    + intros k v Hk. specialize (H1 k v Hk). simpl in H1.
      destruct (md !! k) as [d|]; [by exists d|done].
    + intros k [d Hd]. specialize (H2 k d Hd). simpl in H2.
      destruct (ms !! k); [done|discriminate].
  - intros [H1 H2]. split.
    + intros k v Hk. destruct (H1 k v Hk) as (d & -> & Hd). done.
    + intros k d Hd. destruct (H2 k (mk_is_Some _ _ Hd)) as [v ->]. done.
Qed.

Lemma check_refl v : check v v = 0%nat.
Proof.
  induction v as [v Hv|l _|m IH] using Value_ind'.
  - destruct v; try done; simpl; by rewrite decide_False by (by intros []).
  - by apply JsonFacts.check_array_zero.
  - apply check_object. split; [|done].
    intros k v Hk. exists v. split; [done|]. by apply (IH k).
Qed.

(** *** Merging and generating *)

Lemma merge_object n ms :
  merge n (object ms)
  = Object (map_fold (λ k v' fs, <[k := merge (fs !! k) v']> fs)
              (fields_of n) ms).
Proof. reflexivity. Qed.

Lemma merge_array n l :
  merge n (array l) = Array (merge_all (child_of n) l).
Proof. reflexivity. Qed.

(** The field [k] after an object is merged: merged if the object has it,
    untouched otherwise. *)
Lemma merge_fields_lookup (fs : gmap string Node) (ms : gmap string Value) k :
  map_fold (λ k v' fs, <[k := merge (fs !! k) v']> fs) fs ms !! k
  = match ms !! k with
    | Some v => Some (merge (fs !! k) v)
    | None => fs !! k
    end.
Proof.
  revert k.
  apply (map_fold_weak_ind
           (λ (r : gmap string Node) (m : gmap string Value),
              ∀ k, r !! k = match m !! k with
                            | Some v => Some (merge (fs !! k) v)
                            | None => fs !! k
                            end)).
  - intros k. by rewrite lookup_empty.
  - intros i x m r Hi IH k. destruct (decide (i = k)) as [->|Hne].
    + rewrite !lookup_insert_eq. by rewrite IH, Hi.
    + by rewrite !lookup_insert_ne.
Qed.

Lemma generate_merge_scalar n v :
  is_scalar v = true → generate_node (merge n v) = v.
Proof. by destruct v. Qed.

(** C4. Recording one document whose fields are all scalars into the empty
    model and generating gives the document back: the generated document is
    the recorded one, field for field, with the same type tags and values,
    and [check] finds no difference. *)
Theorem single_record_fidelity (ms : gmap string Value) :
  map_Forall (λ _ v, is_scalar v = true) ms →
  let g := generate (record None (object ms)) in
  g = object ms
  ∧ check (object ms) g = 0%nat
  ∧ (∀ k v, ms !! k = Some v →
       ∃ v', members_of g !! k = Some v' ∧ type v' = type v ∧ v' = v).
Proof.
  intros Hs g.
  assert (g = object ms) as Hg.
  { subst g. unfold generate, record. rewrite merge_object. simpl. f_equal.
    apply map_eq. intros k.
    rewrite lookup_fmap, merge_fields_lookup, lookup_empty.
    destruct (ms !! k) as [v|] eqn:Hk; [|done]. simpl.
    by rewrite generate_merge_scalar by apply (Hs k v Hk). }
  rewrite Hg. split; [done|]. split; [apply check_refl|].
  intros k v Hk. by exists v.
Qed.

(** *** Array collapse *)

Lemma merge_all_app n vs1 vs2 :
  merge_all n (vs1 ++ vs2) = merge_all (merge_all n vs1) vs2.
Proof. apply foldl_app. Qed.

Lemma merge_all_cons n v vs :
  merge_all n (v :: vs) = merge_all (Some (merge n v)) vs.
Proof. reflexivity. Qed.

(** Arrays merged one after the other: one Array node, whose child has
    received all their elements in order. *)
Lemma merge_all_arrays vs :
  ∀ n, vs ≠ [] →
  Forall (λ v, type v = arrayValue) vs →
  merge_all n vs
  = Some (Array (merge_all (child_of n) (concat (map elems_of vs)))).
Proof.
  induction vs as [|v vs IH]; intros n Hne Hall; [done|].
  apply Forall_cons in Hall as [Hv Hvs].
  destruct v as [| | | | | |l|]; try discriminate Hv.
  rewrite merge_all_cons, merge_array. simpl.
  destruct vs as [|v' vs].
  - simpl. by rewrite app_nil_r.
  - rewrite IH by done. simpl child_of. by rewrite <-merge_all_app.
Qed.

(** Objects merged one after the other: one Object node; its field [k] has
    received, in order, the values the objects have for [k]. *)
Lemma merge_all_objects vs :
  ∀ n, vs ≠ [] →
  Forall (λ v, type v = objectValue) vs →
  ∃ fs, merge_all n vs = Some (Object fs)
        ∧ ∀ k, fs !! k
               = merge_all (fields_of n !! k)
                   (omap (λ v, members_of v !! k) vs).
Proof.
  induction vs as [|v vs IH]; intros n Hne Hall; [done|].
  apply Forall_cons in Hall as [Hv Hvs].
  destruct v as [| | | | | | |ms]; try discriminate Hv.
  rewrite merge_all_cons, merge_object.
  destruct vs as [|v' vs].
  - eexists. split; [done|]. intros k. rewrite merge_fields_lookup. simpl.
    by destruct (ms !! k).
  - destruct (IH (Some (Object (map_fold (λ k v' fs, <[k := merge (fs !! k) v']> fs)
                                  (fields_of n) ms)))) as (fs & Hfs & Hk);
      [done|done|].
    exists fs. split; [done|]. intros k. rewrite Hk. cbn [fields_of].
    rewrite merge_fields_lookup.
    set (rest := v' :: vs).
    change (omap (λ v, members_of v !! k) (object ms :: rest))
      with (match ms !! k with
            | Some v => v :: omap (λ v, members_of v !! k) rest
            | None => omap (λ v, members_of v !! k) rest
            end).
    by destruct (ms !! k) as [v|].
Qed.

Lemma merge_all_nonempty n vs : vs ≠ [] → is_Some (merge_all n vs).
Proof.
  revert n. induction vs as [|v vs IH]; intros n Hne; [done|].
  rewrite merge_all_cons. destruct vs; [by eexists|]. by apply IH.
Qed.

(** What is generated at a position where the merged values agree in
    kind and some value is an array. *)
Lemma collapse_at p :
  ∀ n vs,
  uniform p vs →
  concat (map (values_at p) vs) ≠ [] →
  values_at p (generate (merge_all n vs))
  = [array [generate (merge_all (child_of (node_at p n))
                        (concat (map elems_of
                                   (concat (map (values_at p) vs)))))]].
Proof.
  induction p as [|[k|] p IH]; intros n vs Hu Hne.
  - simpl in *. assert (vs ≠ []) as Hvs by (by intros ->).
    assert (concat (map (λ v, [v]) vs) = vs) as ->.
    { clear. induction vs; simpl; congruence. }
    rewrite merge_all_arrays by done. simpl.
    by destruct (merge_all _ _).
  - destruct Hu as [Hobj Hu]. assert (vs ≠ []) as Hvs by (by intros ->).
    destruct (merge_all_objects vs n Hvs Hobj) as (fs & -> & Hfs).
    assert (concat (map (values_at (Field k :: p)) vs)
            = concat (map (values_at p)
                        (omap (λ v, members_of v !! k) vs))) as Hflat.
    { clear. induction vs as [|v vs IHv]; [done|].
      cbn [map concat]. rewrite IHv.
      change (values_at (Field k :: p) v)
        with (match members_of v !! k with
              | Some v' => values_at p v'
              | None => []
              end).
      change (omap (λ v, members_of v !! k) (v :: vs))
        with (match members_of v !! k with
              | Some v' => v' :: omap (λ v, members_of v !! k) vs
              | None => omap (λ v, members_of v !! k) vs
              end).
      by destruct (members_of v !! k). }
    rewrite Hflat in Hne |- *.
    assert (omap (λ v, members_of v !! k) vs ≠ []) as Hk by (by intros E; rewrite E in Hne).
    simpl. rewrite lookup_fmap, Hfs.
    destruct (merge_all_nonempty (fields_of n !! k) _ Hk) as [c Hc].
    specialize (IH (fields_of n !! k) _ Hu Hne). rewrite Hc in IH |- *.
    simpl. exact IH.
  - destruct Hu as [Harr Hu]. assert (vs ≠ []) as Hvs by (by intros ->).
    rewrite merge_all_arrays by done.
    assert (concat (map (values_at (Elem :: p)) vs)
            = concat (map (values_at p) (concat (map elems_of vs)))) as Hflat.
    { clear. induction vs as [|v vs IHv]; [done|].
      cbn [map concat]. by rewrite map_app, concat_app, IHv. }
    rewrite Hflat in Hne |- *.
    assert (concat (map elems_of vs) ≠ []) as Hk by (by intros E; rewrite E in Hne).
    specialize (IH (child_of n) _ Hu Hne).
    destruct (merge_all_nonempty (child_of n) _ Hk) as [c Hc].
    rewrite Hc in IH |- *. simpl. rewrite app_nil_r. exact IH.
Qed.

(** C3, as amended. When the values a recorded document holds along a
    position agree in kind (objects before a field step, arrays before an
    element step and at the position), and the document holds an array of
    more than one element there, [generate] emits at that position an array
    of exactly one element: the generation of the node into which all the
    elements of the arrays at that position were merged, in order, starting
    from the child that was there before. *)
Theorem array_collapse (m : Model) (doc : Value) (p : Position) elems :
  uniform p [doc] →
  array elems ∈ values_at p doc →
  (1 < length elems)%nat →
  ∃ x,
    values_at p (generate (record m doc)) = [array [x]]
    ∧ x = generate (merge_all (child_of (node_at p m))
                      (concat (map elems_of (values_at p doc)))).
Proof.
  intros Hu Hin _. eexists. split; [|done].
  pose proof (collapse_at p m [doc] Hu) as H. simpl in H.
  rewrite app_nil_r in H. apply H. intros E. rewrite E in Hin.
  by apply elem_of_nil in Hin.
Qed.

Lemma array_collapse_witness :
  uniform [Field "ints"] [ints_doc]
  ∧ array [int 123; int 12345; int 23; int 1512]
      ∈ values_at [Field "ints"] ints_doc
  ∧ values_at [Field "ints"] (generate (record None ints_doc))
    = [array [int 1512]].
Proof.
  assert (uniform [Field "ints"] [ints_doc]) as H1.
  { split; repeat constructor. }
  assert (array [int 123; int 12345; int 23; int 1512]
            ∈ values_at [Field "ints"] ints_doc) as H2 by (vm_compute; left).
  split; [exact H1|]. split; [exact H2|].
  destruct (array_collapse None ints_doc [Field "ints"] _ H1 H2)
    as (x & -> & ->); [simpl; lia|].
  reflexivity.
Defined.

(** C3, as stated, fails where kinds conflict: in [{"m":[[1,2],5]}] the
    array [[1,2]] stands at the position of the elements of [m], and what is
    generated there is the leaf 5. *)
Lemma array_collapse_kind_conflict :
  array [int 1; int 2] ∈ values_at [Field "m"; Elem] conflict_doc
  ∧ (1 < length [int 1; int 2])%nat
  ∧ values_at [Field "m"; Elem] (generate (record None conflict_doc))
    = [int 5].
Proof.
  split; [vm_compute; left|]. split; [simpl; lia|]. vm_compute. reflexivity.
Qed.

(** *** The codec *)

Local Arguments lit : simpl never.

(** *** The pieces of the text form *)

Lemma expect_app l s : expect l (l ++ s) = Some s.
Proof.
  unfold expect. rewrite take_app_length, drop_app_length.
  by rewrite decide_True.
Qed.

Lemma expect_head c c' s : c ≠ c' → expect [c'] (c :: s) = None.
Proof. intros Hne. unfold expect. simpl. by rewrite decide_False by congruence. Qed.

Lemma dec_uint_stops rest : stops rest → dec_uint rest = (Decimal.Nil, rest).
Proof. destruct rest as [|c rest]; simpl; [done|]. by intros ->. Qed.

Lemma dec_uint_enc d rest :
  stops rest → dec_uint (enc_uint d ++ rest) = (d, rest).
Proof.
  intros Hrest. induction d as [|d IH|d IH|d IH|d IH|d IH|d IH|d IH|d IH|d IH|d IH];
    [by apply dec_uint_stops|..];
    cbn [enc_uint app dec_uint];
    (match goal with
     | |- context [digit ?c] => change (digit c) with (digit c); 
         let x := eval vm_compute in (digit c) in change (digit c) with x
     end); cbn beta iota; by rewrite IH.
Qed.

Lemma dec_N_enc n rest : stops rest → dec_N (enc_N n ++ rest) = Some (n, rest).
Proof.
  intros Hrest. unfold dec_N, enc_N. rewrite dec_uint_enc by done.
  rewrite DecimalN.Unsigned.of_to.
  destruct (N.to_uint n) eqn:E; try done.
  destruct n as [|p]; [done|]. by apply DecimalPos.Unsigned.to_uint_nonnil in E.
Qed.

Lemma enc_N_head n : ∃ c s, enc_N n = c :: s ∧ c ≠ "-"%char.
Proof.
  unfold enc_N.
  assert (N.to_uint n ≠ Decimal.Nil) as Hn.
  { destruct n as [|p]; [done|]. apply DecimalPos.Unsigned.to_uint_nonnil. }
  destruct (N.to_uint n); try done; simpl; eexists _, _; (split; [done|done]).
Qed.

Lemma dec_Z_enc z rest : stops rest → dec_Z (enc_Z z ++ rest) = Some (z, rest).
Proof.
  intros Hrest. destruct z as [|p|p]; unfold enc_Z.
  - destruct (enc_N_head (Z.to_N 0)) as (c & s & E & Hc).
    pose proof (dec_N_enc (Z.to_N 0) rest Hrest) as Hd. rewrite E in Hd |- *.
    cbn [app dec_Z] in Hd |- *. rewrite decide_False by done. by rewrite Hd.
  - destruct (enc_N_head (Z.to_N (Z.pos p))) as (c & s & E & Hc).
    pose proof (dec_N_enc (Z.to_N (Z.pos p)) rest Hrest) as Hd.
    rewrite E in Hd |- *.
    cbn [app dec_Z] in Hd |- *. rewrite decide_False by done. by rewrite Hd.
  - cbn [app dec_Z]. rewrite decide_True by done.
    by rewrite dec_N_enc.
Qed.

Lemma unescape_escape s rest :
  unescape (escape s ++ dquote :: rest) = Some (s, rest).
Proof.
  induction s as [|c s IH]; cbn [escape].
  - cbn [app unescape]. by rewrite decide_True.
  - case_decide as Hc.
    + cbn [app unescape]. rewrite decide_False by done.
      rewrite decide_True by done. by rewrite IH.
    + cbn [app unescape]. rewrite !decide_False by tauto. by rewrite IH.
Qed.

Lemma dec_string_enc s rest :
  dec_string (enc_string s ++ rest) = Some (s, rest).
Proof.
  unfold enc_string, dec_string. cbn [app]. rewrite decide_True by done.
  rewrite <-app_assoc. cbn [app]. rewrite unescape_escape. simpl.
  by rewrite String.string_of_list_ascii_of_string.
Qed.

Lemma stops_lit_close rest : stops (lit "}" ++ rest).
Proof. done. Qed.
Lemma stops_lit_comma rest : stops (lit "," ++ rest).
Proof. done. Qed.
Lemma stops_lit_bracket rest : stops (lit "]" ++ rest).
Proof. done. Qed.

(** The payload of a leaf, read back up to the closing brace. *)
Lemma dec_payload_enc sc rest :
  ∃ tag pl,
    enc_scalar sc = tagged tag pl
    ∧ tag ≠ "obj" ∧ tag ≠ "arr"
    ∧ dec_payload tag (pl ++ lit "}" ++ rest) = Some (sc, lit "}" ++ rest).
Proof.
  destruct sc as [|i|u|r|t|b]; eexists _, _; (split; [reflexivity|]);
    (split; [done|]); (split; [done|]); unfold dec_payload;
    repeat (rewrite decide_False by done); rewrite decide_True by done.
  - by rewrite expect_app.
  - by rewrite dec_Z_enc by apply stops_lit_close.
  - by rewrite dec_N_enc by apply stops_lit_close.
  - rewrite <-!app_assoc, expect_app. cbn [mbind option_bind].
    rewrite dec_Z_enc by apply stops_lit_comma. cbn [mbind option_bind].
    rewrite expect_app. cbn [mbind option_bind].
    rewrite dec_N_enc by apply stops_lit_bracket. cbn [mbind option_bind].
    rewrite expect_app. cbn [mbind option_bind]. do 3 f_equal.
    apply Qcanon.Qc_decomp. destruct r as [[n d] Hc]. simpl. exact Hc.
  - by rewrite dec_string_enc.
  - destruct b.
    + by rewrite expect_app.
    + assert (expect (lit "1") (lit "0" ++ lit "}" ++ rest) = None) as ->
        by reflexivity.
      by rewrite expect_app.
Qed.

Lemma dec_node_S fuel s :
  dec_node (S fuel) s
  = (s ← expect (lit "{") s;
     '(tag, s) ← dec_string s;
     s ← expect (lit ":") s;
     '(n, s) ←
       (if decide (tag = "obj") then
          s ← expect (lit "{") s;
          '(fs, s) ← dec_fields fuel s;
          Some (Object fs, s)
        else if decide (tag = "arr") then
          s ← expect (lit "[") s;
          match expect (lit "]") s with
          | Some s => Some (Array None, s)
          | None =>
              '(c, s) ← dec_node fuel s;
              s ← expect (lit "]") s;
              Some (Array (Some c), s)
          end
        else '(sc, s) ← dec_payload tag s; Some (Leaf sc, s));
     s ← expect (lit "}") s;
     Some (n, s)).
Proof. reflexivity. Qed.

Lemma dec_fields_S fuel s :
  dec_fields (S fuel) s
  = match expect (lit "}") s with
    | Some s => Some (∅, s)
    | None =>
        '(k, s) ← dec_string s;
        s ← expect (lit ":") s;
        '(c, s) ← dec_node fuel s;
        match expect (lit ",") s with
        | Some s => '(fs, s) ← dec_fields fuel s; Some (<[k := c]> fs, s)
        | None => s ← expect (lit "}") s; Some (<[k := c]> ∅, s)
        end
    end.
Proof. reflexivity. Qed.

Local Opaque dec_node dec_fields.

(** The header of a tagged value is read back; what is left is the payload,
    the closing brace and the rest. *)
Lemma dec_node_tagged fuel tag pl rest :
  dec_node (S fuel) (tagged tag pl ++ rest)
  = ('(n, s) ←
       (if decide (tag = "obj") then
          s ← expect (lit "{") (pl ++ lit "}" ++ rest);
          '(fs, s) ← dec_fields fuel s;
          Some (Object fs, s)
        else if decide (tag = "arr") then
          s ← expect (lit "[") (pl ++ lit "}" ++ rest);
          match expect (lit "]") s with
          | Some s => Some (Array None, s)
          | None =>
              '(c, s) ← dec_node fuel s;
              s ← expect (lit "]") s;
              Some (Array (Some c), s)
          end
        else '(sc, s) ← dec_payload tag (pl ++ lit "}" ++ rest);
             Some (Leaf sc, s));
     s ← expect (lit "}") s;
     Some (n, s)).
Proof.
  rewrite dec_node_S. unfold tagged. rewrite <-!app_assoc.
  rewrite expect_app. cbn [mbind option_bind].
  rewrite dec_string_enc. cbn [mbind option_bind].
  by rewrite expect_app.
Qed.

Lemma length_tagged tag pl :
  (length pl + 2 < length (tagged tag pl))%nat.
Proof.
  unfold tagged, enc_string. rewrite !length_app. simpl. rewrite !length_app. simpl. lia.
Qed.

Lemma enc_node_Object fs :
  enc_node (Object fs)
  = tagged "obj"
      (lit "{" ++ enc_fields (prod_map id enc_node <$> map_to_list fs)).
Proof. simpl. by rewrite map_to_list_fmap. Qed.

Lemma enc_node_head n : ∃ s, enc_node n = "{"%char :: s.
Proof. destruct n as [[]| |]; by eexists. Qed.

Lemma length_enc_fields_cons k c l :
  (length c < length (enc_fields ((k, c) :: l)))%nat
  ∧ (length (enc_fields l) < length (enc_fields ((k, c) :: l)))%nat.
Proof.
  cbn [enc_fields]. unfold enc_string. rewrite !length_app. cbn [length].
  rewrite !length_app.
  destruct l as [|[k' c'] l]; rewrite ?length_app;
    change (length (lit ":")) with 1%nat;
    change (length (lit "}")) with 1%nat;
    change (length (lit ",")) with 1%nat;
    change (length (enc_fields [])) with 1%nat; lia.
Qed.

Lemma enc_fields_cons_ne k c l :
  l ≠ [] →
  enc_fields ((k, c) :: l)
  = enc_string k ++ lit ":" ++ c ++ lit "," ++ enc_fields l.
Proof. by destruct l. Qed.

(** The fields of an object are read back, each child by the parser of
    nodes. *)
Lemma dec_fields_enc (l : list (string * Node)) :
  Forall (λ kc, ∀ fuel rest,
            (length (enc_node kc.2) ≤ fuel)%nat →
            dec_node fuel (enc_node kc.2 ++ rest) = Some (kc.2, rest)) l →
  ∀ fuel rest,
    (length (enc_fields (prod_map id enc_node <$> l)) < fuel)%nat →
    dec_fields fuel (enc_fields (prod_map id enc_node <$> l) ++ rest)
    = Some (list_to_map l, rest).
Proof.
  induction 1 as [|[k c] l Hc _ IH]; intros fuel rest Hfuel;
    (destruct fuel as [|fuel]; [lia|]); rewrite dec_fields_S.
  - by rewrite expect_app.
  - rewrite fmap_cons in *. cbn [prod_map fst snd id] in *.
    pose proof (length_enc_fields_cons k (enc_node c)
                  (prod_map id enc_node <$> l)) as [Hl1 Hl2].
    assert (∀ x, expect (lit "}") (enc_string k ++ x) = None) as Hclose
      by reflexivity.
    destruct l as [|kc' l].
    + cbn [fmap list_fmap enc_fields]. rewrite <-!app_assoc, Hclose.
      rewrite dec_string_enc. cbn [mbind option_bind].
      rewrite expect_app. cbn [mbind option_bind].
      rewrite Hc by lia. cbn [mbind option_bind].
      assert (expect (lit ",") (lit "}" ++ rest) = None) as -> by reflexivity.
      by rewrite expect_app.
    + rewrite enc_fields_cons_ne by done. rewrite <-!app_assoc, Hclose.
      rewrite dec_string_enc. cbn [mbind option_bind].
      rewrite expect_app. cbn [mbind option_bind].
      rewrite Hc by lia. cbn [mbind option_bind].
      rewrite expect_app. by rewrite IH by lia.
Qed.

(** Completeness of the parser: the text of a node, followed by anything,
    is read back as that node and leaves what followed. *)
Lemma dec_node_enc n :
  ∀ fuel rest,
    (length (enc_node n) ≤ fuel)%nat →
    dec_node fuel (enc_node n ++ rest) = Some (n, rest).
Proof.
  induction n as [sc|fs IH| |c IH] using Node_ind';
    intros fuel rest Hfuel.
  - destruct (dec_payload_enc sc rest) as (tag & pl & Henc & Ho & Ha & Hpl).
    cbn [enc_node] in *. rewrite Henc in *.
    pose proof (length_tagged tag pl).
    destruct fuel as [|fuel]; [lia|]. rewrite dec_node_tagged.
    rewrite !decide_False by done. rewrite Hpl. cbn [mbind option_bind].
    by rewrite expect_app.
  - rewrite enc_node_Object in *.
    pose proof (length_tagged "obj"
                  (lit "{" ++ enc_fields (prod_map id enc_node <$> map_to_list fs))) as Hlen.
    rewrite length_app in Hlen.
    destruct fuel as [|fuel]; [lia|]. rewrite dec_node_tagged.
    rewrite decide_True by done. rewrite <-app_assoc, expect_app.
    cbn [mbind option_bind].
    rewrite dec_fields_enc; [| |change (length (lit "{")) with 1%nat in Hlen; lia].
    2:{ apply map_Forall_to_list in IH. eapply Forall_impl; [exact IH|].
        by intros [k c]. }
    cbn [mbind option_bind]. rewrite expect_app. cbn [mbind option_bind].
    by rewrite list_to_map_to_list.
  - cbn [enc_node] in *.
    pose proof (length_tagged "arr" (lit "[" ++ [] ++ lit "]")).
    destruct fuel as [|fuel]; [lia|]. rewrite dec_node_tagged.
    rewrite decide_False by done. rewrite decide_True by done.
    cbn [app]. rewrite <-app_assoc, expect_app. cbn [mbind option_bind].
    rewrite expect_app. cbn [mbind option_bind]. by rewrite expect_app.
  - cbn [enc_node] in *.
    pose proof (length_tagged "arr" (lit "[" ++ enc_node c ++ lit "]")) as Hlen.
    rewrite !length_app in Hlen.
    destruct fuel as [|fuel]; [lia|]. rewrite dec_node_tagged.
    rewrite decide_False by done. rewrite decide_True by done.
    rewrite <-!app_assoc, expect_app. cbn [mbind option_bind].
    destruct (enc_node_head c) as [s Hs].
    assert (expect (lit "]") (enc_node c ++ lit "]" ++ lit "}" ++ rest) = None)
      as -> by (by rewrite Hs).
    rewrite IH by lia. cbn [mbind option_bind].
    rewrite expect_app. cbn [mbind option_bind]. by rewrite expect_app.
Qed.

Lemma enc_node_not_null n t : enc_node n ++ t ≠ lit "null".
Proof. destruct (enc_node_head n) as [s ->]. discriminate. Qed.

(** What [dump] writes, [decode] reads back. *)
Lemma decode_dump m : decode (dump m) = Some m.
Proof.
  destruct m as [n|]; [|done]. unfold decode, dump.
  rewrite decide_False by (rewrite <-(app_nil_r (enc_node n)); apply enc_node_not_null).
  rewrite <-(app_nil_r (enc_node n)) at 2. rewrite dec_node_enc by done.
  by rewrite decide_True.
Qed.

(** What [decode] accepts is the text [dump] writes for the result. *)
Lemma decode_exact s m : decode s = Some m → s = dump m.
Proof.
  unfold decode. case_decide as Hnull; [by intros [= <-]|].
  destruct (dec_node (length s) s) as [[n rest]|]; [|done].
  destruct rest; [|done]. case_decide; [|done]. by intros [= <-].
Qed.

(** No text of a model is the beginning of a longer text of a model. *)
Lemma dump_prefix_free m1 m2 t : dump m1 ++ t = dump m2 → t = [].
Proof.
  destruct m1 as [n1|], m2 as [n2|]; unfold dump; intros Heq.
  - assert (length (enc_node n1) ≤ length (enc_node n2))%nat as Hlen
      by (rewrite <-Heq, length_app; lia).
    pose proof (dec_node_enc n1 (length (enc_node n2)) t Hlen) as H1.
    pose proof (dec_node_enc n2 (length (enc_node n2)) [] (Nat.le_refl _))
      as H2.
    rewrite app_nil_r in H2. rewrite Heq, H2 in H1.
    symmetry. by injection H1.
  - by apply enc_node_not_null in Heq.
  - symmetry in Heq. destruct (enc_node_head n2) as [s Hs].
    rewrite Hs in Heq. discriminate Heq.
  - apply (app_inv_head (lit "null")). by rewrite app_nil_r.
Qed.

(** C2. Loading what [dump] wrote gives the model back, whatever the model
    held before: [generate] after the load returns the document it returned
    before the dump, and [check] finds no difference between the two. *)
Theorem dump_load_fixpoint (m m0 : Model) :
  load (dump m) m0 = (Loaded, m)
  ∧ generate (load (dump m) m0).2 = generate m
  ∧ check (generate m) (generate (load (dump m) m0).2) = 0%nat.
Proof.
  assert (load (dump m) m0 = (Loaded, m)) as Hload
    by (unfold load; by rewrite decode_dump).
  rewrite Hload. split; [done|]. split; [done|]. apply check_refl.
Qed.

Lemma truncated_corrupt s : truncated s → corrupt s.
Proof.
  intros (m & t & Ht & Hm) m' ->. symmetry in Hm.
  by apply dump_prefix_free in Hm.
Qed.

(** *** The test cases *)

(** [recordLeafs] and [recordObject]: [check(source, synth.generate())]
    finds nothing. *)
Example test_recordLeafs :
  check leafs_doc (generate (record None leafs_doc)) = 0%nat.
Proof. vm_compute. reflexivity. Qed.

Example test_recordObject :
  check object_doc (generate (record None object_doc)) = 0%nat.
Proof. vm_compute. reflexivity. Qed.

(** [recordArray]: what is printed, and a dump after a load is the dump
    before it. *)
Example test_recordArray :
  generate (record None array_doc)
  = object {[ "ints" := array [int 1512];
              "strings" := array [str "bleh"];
              "objs" := array [object {[ "a" := int 1; "b" := int 2;
                                         "c" := int 3; "d" := int 4 ]}];
              "matrix" := array [array [int 25123]] ]}.
Proof. vm_compute. reflexivity. Qed.

Lemma dump_load_dump m m0 : dump (load (dump m) m0).2 = dump m.
Proof. unfold load. by rewrite decode_dump. Qed.

Lemma single_record_fidelity_witness :
  map_Forall (λ _ v, is_scalar v = true) (members_of leafs_doc)
  ∧ generate (record None leafs_doc) = leafs_doc.
Proof.
  assert (map_Forall (λ _ v, is_scalar v = true) (members_of leafs_doc)) as H.
  { apply map_Forall_to_list. vm_compute. repeat constructor. }
  split; [exact H|]. apply (single_record_fidelity _ H).
Defined.

End SynthFacts.

(** ** More facts about the REST proxy *)

Module ProxyFacts.
Import Rest RestFacts.

Section Calls.
Variable h : Header.

Local Arguments perform_opts : simpl never.
Local Arguments delivered : simpl never.
Local Arguments maxSlot : simpl never.
Local Arguments first_error : simpl never.
Local Opaque Rest.putOrPost_loop.

Lemma loop_turn_attempt p resource body isPost net rnd fuel retries response0 :
  (retries < maxRetries p)%nat →
  Rest.putOrPost_loop h p resource body isPost net rnd (S fuel) retries
    response0
  = let verb := if isPost then "POST" else "PUT" in
    let ev := [EvPerform (Rest.request_opts h p resource body isPost)] in
    match attempt h p resource body isPost net retries with
    | Return response =>
        if bool_decide (code response < 400) then (Return response, ev)
        else
          match first_error h resource body verb (code response) retries
                  response with
          | Return ev1 =>
              if bool_decide (code response < 500)
              then (Throw Unrecoverable, ev ++ ev1)
              else
                let '(res, evs) :=
                  Rest.putOrPost_loop h p resource body isPost net rnd fuel
                    (S retries) response in
                (res, ev ++ ev1
                      ++ [EvSleep (Z.of_nat retries) (rnd retries)
                            (maxSlot (Z.of_nat retries));
                          EvRetrying verb resource (retries + 1)
                            (maxRetries p)]
                      ++ evs)
          | Throw e => (Throw e, ev)
          | OutOfFuel => (OutOfFuel, ev)
          end
    | Throw e => (Throw e, ev)
    | OutOfFuel => (OutOfFuel, ev)
    end.
Proof. apply loop_turn. Qed.

Lemma attempt_outcome p resource body isPost net k :
  match net k with
  | Delivered st hl ch =>
      attempt h p resource body isPost net k = Return (delivered h st hl ch)
  | CurlError c =>
      if default_exceptions h
      then attempt h p resource body isPost net k
           = Throw (LibcurlRuntimeError c)
      else ∃ r, attempt h p resource body isPost net k = Return r
                ∧ code r = code (Response_default h) ∧ errorCode_ r = c
  end.
Proof.
  unfold attempt, Rest.perform. destruct (net k); [|done].
  destruct (default_exceptions h); [done|]. by eexists.
Qed.

(** How the loop ends, entered at attempt [retries] with enough fuel. *)
Lemma loop_outcome p resource body isPost net rnd fuel :
  ∀ retries response,
  (maxRetries p - retries ≤ fuel)%nat →
  let r := Rest.putOrPost_loop h p resource body isPost net rnd fuel retries
             response in
  (∃ resp, r.1 = Return resp
     ∧ schedule r.2 = backoff_from retries (maxRetries p - retries)
     ∧ ((maxRetries p ≤ retries)%nat → resp = response)
     ∧ ((retries < maxRetries p)%nat →
        attempt h p resource body isPost net (maxRetries p - 1) = Return resp
        ∧ 500 ≤ code resp))
  ∨ (∃ k, (retries ≤ k < maxRetries p)%nat
       ∧ schedule r.2 = backoff_from retries (k - retries) ++ [Attempt]
       ∧ ((∃ resp, attempt h p resource body isPost net k = Return resp
             ∧ code resp < 400 ∧ r.1 = Return resp)
          ∨ (∃ resp, attempt h p resource body isPost net k = Return resp
               ∧ 400 ≤ code resp < 500 ∧ r.1 = Throw Unrecoverable)
          ∨ (∃ e, attempt h p resource body isPost net k = Throw e
               ∧ r.1 = Throw e)
          ∨ (∃ resp, k = 0%nat
               ∧ attempt h p resource body isPost net k = Return resp
               ∧ 400 ≤ code resp
               ∧ match Response_body h resp with
                 | Return _ => False
                 | Throw e => r.1 = Throw e
                 | OutOfFuel => r.1 = OutOfFuel
                 end))).
Proof.
  induction fuel as [|fuel IH]; intros retries response Hfuel;
    destruct (decide (retries < maxRetries p)%nat) as [Hlt|Hge];
    try lia;
    try (rewrite loop_exit by done; cbn; left; exists response;
         replace (maxRetries p - retries)%nat with 0%nat by lia;
         repeat split; (done || lia)).
  rewrite loop_turn_attempt by done. cbn zeta.
  set (ev := [EvPerform (Rest.request_opts h p resource body isPost)]).
  assert (schedule ev = [Attempt]) as Hev by done.
  assert (backoff_from retries (retries - retries) = []) as H0
    by (by rewrite Nat.sub_diag).
  destruct (attempt h p resource body isPost net retries) as [resp|e|]
    eqn:Hatt.
  - case_bool_decide as H400.
    { right. exists retries. split; [lia|]. cbn [fst snd]. rewrite H0, Hev.
      split; [done|]. left. by exists resp. }
    destruct (first_error h resource body _ (code resp) retries resp)
      as [ev1|e|] eqn:Hev1.
    + pose proof (first_error_silent _ _ _ _ _ _ _ _ Hev1) as Hs1.
      case_bool_decide as H500.
      { right. exists retries. split; [lia|]. cbn [fst snd].
        rewrite schedule_app, Hs1, H0, Hev. split; [done|].
        right; left. exists resp. repeat split; (done || lia). }
      specialize (IH (S retries) resp ltac:(lia)). cbn zeta in IH.
      destruct (Rest.putOrPost_loop h p resource body isPost net rnd fuel
                  (S retries) resp) as [res tr].
      cbn [fst snd] in *.
      assert (schedule (ev ++ ev1
                ++ [EvSleep (Z.of_nat retries) (rnd retries)
                      (maxSlot (Z.of_nat retries));
                    EvRetrying (if isPost then "POST" else "PUT") resource
                      (retries + 1) (maxRetries p)] ++ tr)
              = backoff_from retries 1 ++ schedule tr) as Hsch.
      { rewrite !schedule_app, Hs1, Hev. done. }
      rewrite Hsch.
      destruct IH as [(resp' & Hres & Htr & Hsame & Hlast)
                     |(k & Hk & Htr & Hend)].
      * left. exists resp'. split; [done|]. split.
        { rewrite Htr. replace (S retries) with (retries + 1)%nat by lia.
          rewrite backoff_from_app. f_equal. lia. }
        split; [lia|]. intros _.
        destruct (decide (S retries < maxRetries p)%nat) as [Hlt'|Hge'].
        -- by apply Hlast.
        -- rewrite (Hsame ltac:(lia)).
           replace (maxRetries p - 1)%nat with retries by lia.
           split; [done|lia].
      * right. exists k. split; [lia|]. split.
        { rewrite Htr, app_assoc.
          replace (S retries) with (retries + 1)%nat by lia.
          rewrite backoff_from_app. do 2 f_equal. lia. }
        destruct Hend as [Hend|[Hend|[Hend|(resp' & -> & _)]]]; [auto..|lia].
    + right. exists retries. split; [lia|]. cbn [fst snd]. rewrite H0, Hev.
      split; [done|]. do 3 right. exists resp.
      revert Hev1. unfold first_error. case_bool_decide as Hr; [|done].
      destruct (Response_body h resp); [done| |done].
      intros [= ->]. repeat split; (done || lia).
    + right. exists retries. split; [lia|]. cbn [fst snd]. rewrite H0, Hev.
      split; [done|]. do 3 right. exists resp.
      revert Hev1. unfold first_error. case_bool_decide as Hr; [|done].
      destruct (Response_body h resp); [done|done|].
      intros _. repeat split; (done || lia).
  - right. exists retries. split; [lia|]. cbn [fst snd]. rewrite H0, Hev.
    split; [done|]. do 2 right. left. by exists e.
  - exfalso. unfold attempt in Hatt.
    destruct (perform_outcome h p (if isPost then "POST" else "PUT") resource
                (Content_of h body "application/json") []
                (putOrPost_headers p) (default_timeout h)
                (default_exceptions h) (net retries)) as [[r Hr]|[c Hc]];
      congruence.
Qed.


(** Every event of the loop's trace belongs to one attempt [k], and is one
    of the four the code of that attempt leaves. *)
Lemma loop_trace_Forall p resource body (isPost : bool) net rnd
    (P : nat → Event → Prop) :
  let verb : string := if isPost then "POST" else "PUT" in
  (∀ k, P k (EvPerform (Rest.request_opts h p resource body isPost))) →
  (∀ resp b,
     attempt h p resource body isPost net 0 = Return resp →
     400 ≤ code resp →
     Response_body h resp = Return b →
     P 0%nat (EvFirstError verb resource (code resp) 0 body b)) →
  (∀ k, P k (EvSleep (Z.of_nat k) (rnd k) (maxSlot (Z.of_nat k)))) →
  (∀ k, P k (EvRetrying verb resource (k + 1) (maxRetries p))) →
  ∀ fuel retries response,
    Forall (λ e, ∃ k, (retries ≤ k < maxRetries p)%nat ∧ P k e)
      (Rest.putOrPost_loop h p resource body isPost net rnd fuel retries
         response).2.
Proof.
  intros verb Hperform Hfirst Hsleep Hretry.
  induction fuel as [|fuel IH]; intros retries response;
    destruct (decide (retries < maxRetries p)%nat) as [Hlt|Hge];
    try (rewrite loop_exit by done; by apply Forall_nil).
  { rewrite loop_out_of_fuel by done. by apply Forall_nil. }
  rewrite loop_turn_attempt by done. cbn zeta.
  assert (Forall (λ e, ∃ k, (retries ≤ k < maxRetries p)%nat ∧ P k e)
            [EvPerform (Rest.request_opts h p resource body isPost)]) as Hev.
  { apply Forall_singleton. exists retries. split; [lia|done]. }
  destruct (attempt h p resource body isPost net retries) as [resp|e|]
    eqn:Hatt; [|done..].
  case_bool_decide as H400; [done|].
  destruct (first_error h resource body _ (code resp) retries resp)
    as [ev1|e|] eqn:Hev1; [|done..].
  assert (Forall (λ e, ∃ k, (retries ≤ k < maxRetries p)%nat ∧ P k e) ev1)
    as Hev1'.
  { revert Hev1. unfold first_error. case_bool_decide as Hr.
    - destruct (Response_body h resp) as [b| |] eqn:Hb; [|done..].
      intros [= <-]. apply Forall_singleton. exists 0%nat. subst retries.
      split; [lia|]. apply Hfirst; [done|lia|done].
    - intros [= <-]. apply Forall_nil. done. }
  case_bool_decide as H500.
  { by apply Forall_app. }
  specialize (IH (S retries) resp).
  destruct (Rest.putOrPost_loop h p resource body isPost net rnd fuel
              (S retries) resp) as [res tr].
  cbn [fst snd] in *.
  apply Forall_app. split; [done|]. apply Forall_app. split; [done|].
  apply Forall_cons. split; [exists retries; split; [lia|apply Hsleep]|].
  apply Forall_cons. split; [exists retries; split; [lia|apply Hretry]|].
  eapply Forall_impl; [exact IH|]. intros e (k & Hk & HP). exists k.
  split; [lia|done].
Qed.

(** X1. A call of [putOrPost] is a row of failed attempts, each followed
    by its sleep, and then either nothing more (all [maxRetries] attempts
    were used) or one last attempt: it never sleeps before the first
    attempt, never sleeps twice in a row and never makes two attempts
    without the sleep between them, whatever the network, [random()] and
    [Response::body()] do. *)
Theorem putOrPost_schedule_shape p resource body isPost net rnd :
  let tr := (Rest.putOrPost h p resource body isPost net rnd).2 in
  schedule tr = backoff (maxRetries p)
  ∨ ∃ k, (k < maxRetries p)%nat ∧ schedule tr = backoff k ++ [Attempt].
Proof.
  intros tr. subst tr. unfold Rest.putOrPost.
  destruct (loop_outcome p resource body isPost net rnd (maxRetries p) 0%nat
              (Response_default h) ltac:(lia))
    as [(resp & _ & Hs & _)|(k & Hk & Hs & _)].
  - left. by rewrite Nat.sub_0_r in Hs.
  - right. exists k. split; [lia|]. by rewrite Nat.sub_0_r in Hs.
Qed.

(** X2. When [putOrPost] returns a response, it is the response of the
    last attempt made: either that attempt got a code below 400, or all
    [maxRetries] attempts were used, each followed by its sleep, and the
    response returned has a code of 500 or above; with [maxRetries] at 0
    no request is sent and the default response is returned. *)
Theorem putOrPost_returned_response p resource body isPost net rnd resp :
  (Rest.putOrPost h p resource body isPost net rnd).1 = Return resp →
  let tr := (Rest.putOrPost h p resource body isPost net rnd).2 in
  (∃ k, (k < maxRetries p)%nat
      ∧ attempt h p resource body isPost net k = Return resp
      ∧ code resp < 400
      ∧ schedule tr = backoff k ++ [Attempt])
  ∨ (schedule tr = backoff (maxRetries p)
     ∧ ((maxRetries p = 0)%nat → resp = Response_default h ∧ tr = [])
     ∧ ((0 < maxRetries p)%nat →
        attempt h p resource body isPost net (maxRetries p - 1) = Return resp
        ∧ 500 ≤ code resp)).
Proof.
  intros Hret tr. subst tr. revert Hret. unfold Rest.putOrPost.
  destruct (loop_outcome p resource body isPost net rnd (maxRetries p) 0%nat
              (Response_default h) ltac:(lia))
    as [(resp' & Hr & Hs & Hz & Hlast)|(k & Hk & Hs & Hend)];
    rewrite Nat.sub_0_r in Hs.
  - rewrite Hr. intros [= ->]. right. split; [done|]. split.
    + intros Hmax. split; [apply Hz; lia|].
      rewrite loop_exit by lia. done.
    + done.
  - intros Hret. left. exists k. split; [lia|].
    destruct Hend as [(r & Hatt & Hc & Hr)|[(r & _ & _ & Hr)
                     |[(e & _ & Hr)|(r & _ & _ & _ & Hr)]]].
    + rewrite Hr in Hret. injection Hret as ->. done.
    + congruence.
    + congruence.
    + destruct (Response_body h r); [done|congruence..].
Qed.

Section BodyReturns.

Hypothesis Hbody : body_returns h.

(** X3. When [putOrPost] throws, it does so right after an attempt, with
    no sleep after it: either [perform] threw the curl error of that
    attempt, which is passed on as it is, or the attempt got a code from
    400 to 499 and the exception is the one for an unrecoverable error.
    [Response::body()] is assumed to return. *)
Theorem putOrPost_thrown_exception p resource body isPost net rnd e :
  (Rest.putOrPost h p resource body isPost net rnd).1 = Throw e →
  let tr := (Rest.putOrPost h p resource body isPost net rnd).2 in
  ∃ k, (k < maxRetries p)%nat
    ∧ schedule tr = backoff k ++ [Attempt]
    ∧ ((e = Unrecoverable
        ∧ ∃ resp, attempt h p resource body isPost net k = Return resp
                  ∧ 400 ≤ code resp < 500)
       ∨ (∃ c, e = LibcurlRuntimeError c ∧ net k = CurlError c
               ∧ default_exceptions h = true)).
Proof.
  intros Hthrow tr. subst tr. revert Hthrow. unfold Rest.putOrPost.
  destruct (loop_outcome p resource body isPost net rnd (maxRetries p) 0%nat
              (Response_default h) ltac:(lia))
    as [(resp' & Hr & _)|(k & Hk & Hs & Hend)]; [congruence|].
  rewrite Nat.sub_0_r in Hs. intros Hthrow. exists k.
  split; [lia|]. split; [done|].
  destruct Hend as [(r & _ & _ & Hr)|[(r & Hatt & Hc & Hr)
                   |[(e' & Hatt & Hr)|(r & _ & _ & _ & Hr)]]].
  - congruence.
  - left. split; [congruence|]. by exists r.
  - right. rewrite Hr in Hthrow. injection Hthrow as ->.
    pose proof (attempt_outcome p resource body isPost net k) as Ho.
    destruct (net k) as [c|st hl ch]; [|congruence].
    destruct (default_exceptions h).
    + exists c. split; [congruence|done].
    + destruct Ho as (r & Ho & _). congruence.
  - destruct (Hbody r) as [b Hb]. by rewrite Hb in Hr.
Qed.

(** X4. A failure of the transfer itself is not retried: when attempt
    [k] is reached (the attempts before it all got a code of 500 or above)
    and curl fails on it with [perform] throwing, [putOrPost] throws that
    curl error at once, with no sleep and no further attempt.
    [Response::body()] is assumed to return. *)
Theorem putOrPost_transport_error_not_retried p resource body isPost net rnd
    k c :
  (k < maxRetries p)%nat →
  (∀ j, (j < k)%nat → server_error (net j)) →
  net k = CurlError c →
  default_exceptions h = true →
  let r := Rest.putOrPost h p resource body isPost net rnd in
  r.1 = Throw (LibcurlRuntimeError c)
  ∧ schedule r.2 = backoff k ++ [Attempt].
Proof.
  intros Hk Herr Hnet Hex r. subst r. unfold Rest.putOrPost.
  destruct (loop_server_errors h p resource body isPost net rnd k
              (body_returns_first_report h p resource body isPost net Hbody)
              (maxRetries p) 0%nat (Response_default h))
    as (r' & pre & Heq & Hpre & _); [lia|lia|intros; apply Herr; lia|].
  cbn [Nat.add] in Heq. rewrite Heq.
  assert (∃ fuel, (maxRetries p - k)%nat = S fuel) as [fuel ->].
  { exists (maxRetries p - k - 1)%nat. lia. }
  rewrite loop_turn_attempt by done. cbn zeta.
  pose proof (attempt_outcome p resource body isPost net k) as Ho.
  rewrite Hnet, Hex in Ho. rewrite Ho. cbn [fst snd].
  split; [done|]. by rewrite schedule_app, Hpre.
Qed.

End BodyReturns.

(** X5. The report of the first failure reads [Response::body()]; if
    that throws, the call ends with its exception after one attempt, also
    for a code of 500 or above, which would otherwise be retried. *)
Theorem putOrPost_body_throws p resource body isPost net rnd st hl ch e :
  (0 < maxRetries p)%nat →
  net 0%nat = Delivered st hl ch →
  400 ≤ st →
  Response_body h (delivered h st hl ch) = Throw e →
  Rest.putOrPost h p resource body isPost net rnd
  = (Throw e, [EvPerform (Rest.request_opts h p resource body isPost)]).
Proof.
  intros Hmax Hnet Hst Hb. unfold Rest.putOrPost.
  destruct (maxRetries p) as [|fuel] eqn:Hfuel; [lia|].
  rewrite loop_turn_attempt by lia. cbn zeta.
  pose proof (attempt_outcome p resource body isPost net 0) as Ho.
  rewrite Hnet in Ho. rewrite Ho.
  change (code (delivered h st hl ch)) with st.
  rewrite bool_decide_eq_false_2 by lia.
  unfold first_error. rewrite bool_decide_eq_true_2 by done.
  by rewrite Hb.
Qed.

(** X6. Every attempt of one call sends the same request: the verb is
    [POST] or [PUT] as [isPost] says, the URL is the service URI followed
    by the resource and the escaping of no query parameters, and the
    options are those of the first attempt. *)
Theorem putOrPost_requests_identical p resource body isPost net rnd opts :
  EvPerform opts ∈ (Rest.putOrPost h p resource body isPost net rnd).2 →
  opts = Rest.request_opts h p resource body isPost
  ∧ CustomRequest (if isPost then "POST" else "PUT") ∈ opts
  ∧ Url (serviceUri p +:+ resource +:+ uriEscaped h []) ∈ opts.
Proof.
  intros Hin. unfold Rest.putOrPost in Hin.
  pose proof (loop_trace_Forall p resource body isPost net rnd
                (λ _ e, ∀ o, e = EvPerform o →
                   o = Rest.request_opts h p resource body isPost)) as HF.
  cbn zeta in HF.
  specialize (HF ltac:(by intros _ o [= <-]) ltac:(done) ltac:(done)
                ltac:(done) (maxRetries p) 0%nat (Response_default h)).
  rewrite Forall_forall in HF. destruct (HF _ Hin) as (k & _ & Hk).
  rewrite (Hk opts eq_refl). split; [done|].
  unfold Rest.request_opts, perform_opts.
  split; [by left|]. right. by left.
Qed.

(** X7. The report of a failed attempt is printed for the first attempt
    only, so at most once in a call, however many attempts fail; it shows
    the code of the first response, a code of 400 or above, with the
    request body and the body of that response. *)
Theorem putOrPost_first_error_once p resource body isPost net rnd :
  let tr := (Rest.putOrPost h p resource body isPost net rnd).2 in
  (length (filter (λ e, is_first_error e = true) tr) ≤ 1)%nat
  ∧ ∀ verb res c n b rb,
      EvFirstError verb res c n b rb ∈ tr →
      n = 0%nat ∧ 400 ≤ c ∧ res = resource ∧ b = body
      ∧ verb = (if isPost then "POST" else "PUT")
      ∧ ∃ resp, attempt h p resource body isPost net 0 = Return resp
                ∧ code resp = c ∧ Response_body h resp = Return rb.
Proof.
  intros tr. subst tr. split.
  - unfold Rest.putOrPost.
    destruct (maxRetries p) as [|fuel] eqn:Hfuel.
    { rewrite loop_exit by lia. simpl. lia. }
    rewrite loop_turn_attempt by lia. cbn zeta.
    destruct (attempt h p resource body isPost net 0) as [resp|e|];
      [|simpl; lia..].
    case_bool_decide; [simpl; lia|].
    unfold first_error. rewrite bool_decide_eq_true_2 by done.
    destruct (Response_body h resp); [|simpl; lia..].
    case_bool_decide; [simpl; lia|].
    pose proof (loop_trace_Forall p resource body isPost net rnd
                  (λ k e, is_first_error e = true → k = 0%nat)) as HF.
    cbn zeta in HF.
    specialize (HF ltac:(done) ltac:(done) ltac:(done) ltac:(done)
                  fuel 1%nat resp).
    destruct (Rest.putOrPost_loop h p resource body isPost net rnd fuel 1
                resp) as [res tr].
    cbn [fst snd] in *.
    assert (filter (λ e, is_first_error e = true) tr = []) as Hnone.
    { induction HF as [|e tr (k & Hk & He) _ IH]; [done|].
      rewrite filter_cons_False; [done|]. intros Hfe. specialize (He Hfe).
      lia. }
    rewrite !filter_app, Hnone. simpl. lia.
  - intros verb res c n b rb Hin. unfold Rest.putOrPost in Hin.
    pose proof (loop_trace_Forall p resource body isPost net rnd
                  (λ _ e, e = EvFirstError verb res c n b rb →
                     n = 0%nat ∧ 400 ≤ c ∧ res = resource ∧ b = body
                     ∧ verb = (if isPost then "POST" else "PUT")
                     ∧ ∃ resp,
                         attempt h p resource body isPost net 0 = Return resp
                         ∧ code resp = c
                         ∧ Response_body h resp = Return rb)) as HF.
    cbn zeta in HF.
    specialize (HF ltac:(done)).
    specialize (HF ltac:(intros resp b0 Hatt Hc Hb [= <- <- <- <- <- <-];
                         repeat split; try done; by exists resp)).
    specialize (HF ltac:(done) ltac:(done) (maxRetries p) 0%nat
                  (Response_default h)).
    rewrite Forall_forall in HF. destruct (HF _ Hin) as (k & _ & Hk).
    by apply Hk.
Qed.

(** The sleeps of a call: the one after attempt [k] draws [rnd k] and has
    [maxSlot k] slots. *)
Lemma putOrPost_sleeps p resource body isPost net rnd n rd m :
  EvSleep n rd m ∈ (Rest.putOrPost h p resource body isPost net rnd).2 →
  ∃ k, (k < maxRetries p)%nat ∧ n = Z.of_nat k ∧ rd = rnd k
       ∧ m = maxSlot (Z.of_nat k).
Proof.
  intros Hin. unfold Rest.putOrPost in Hin.
  pose proof (loop_trace_Forall p resource body isPost net rnd
                (λ k e, e = EvSleep n rd m →
                   n = Z.of_nat k ∧ rd = rnd k
                   ∧ m = maxSlot (Z.of_nat k))) as HF.
  cbn zeta in HF.
  specialize (HF ltac:(done) ltac:(done) ltac:(by intros k [= <- <- <-])
                ltac:(done) (maxRetries p) 0%nat (Response_default h)).
  rewrite Forall_forall in HF. destruct (HF _ Hin) as (k & Hk & He).
  exists k. split; [lia|]. by apply He.
Qed.

Lemma after_fields p p' :
  after p p' →
  maxRetries p' = maxRetries p ∧ noSSLChecks p' = noSSLChecks p
  ∧ serviceUri p' = serviceUri p ∧ debug p' = debug p
  ∧ cookies p' = cookies p.
Proof.
  induction 1 as [|p' posted _ IH]; [done|]. by destruct posted.
Qed.

Lemma find_prefix url pat :
  find url pat = Some 0%nat ↔ String.prefix pat url = true.
Proof.
  unfold find. destruct url as [|a url]; simpl.
  - by destruct pat.
  - destruct pat as [|b pat]; [done|].
    destruct (ascii_dec b a) as [->|Hne]; [|].
    + destruct (String.prefix pat url); [done|].
      destruct (String.index 0 (String a pat) url); split; done.
    + destruct (String.index 0 (String b pat) url); split; done.
Qed.

Lemma ctor_maxRetries url : maxRetries (JsonRestProxy_ctor h url) = 10%nat.
Proof. unfold JsonRestProxy_ctor. by case_decide. Qed.

(** X8. The constructor of [JsonRestProxy] gives ten attempts and no
    token, keeps what the base constructor set, and switches the SSL checks
    off exactly when the URL begins with [https://], in this spelling; for
    any other URL [noSSLChecks] stays as the base constructor left it. *)
Theorem JsonRestProxy_ctor_fields url :
  let p := JsonRestProxy_ctor h url in
  let base := HttpRestProxy_ctor h url in
  maxRetries p = 10%nat
  ∧ authToken p = ""
  ∧ noSSLChecks p = String.prefix "https://" url || noSSLChecks base
  ∧ serviceUri p = serviceUri base
  ∧ debug p = debug base
  ∧ cookies p = cookies base.
Proof.
  intros p base. subst p base. unfold JsonRestProxy_ctor.
  case_decide as Hf; rewrite find_prefix in Hf.
  - by rewrite Hf.
  - apply not_true_is_false in Hf. by rewrite Hf.
Qed.

(** X9. A proxy made by the constructor, also after [authenticate],
    sleeps after each failed attempt of [putOrPost] for a number of slots
    that depends on the attempt alone: after attempt [n], which is one of
    the ten attempts [0] to [9], there are [2^n - 1] slots, so none after
    the first attempt and at most 511, and the random number is the one
    drawn for that attempt. *)
Theorem ctor_sleep_slots url p resource body isPost net rnd n rd m :
  after (JsonRestProxy_ctor h url) p →
  EvSleep n rd m ∈ (Rest.putOrPost h p resource body isPost net rnd).2 →
  0 ≤ n ≤ 9 ∧ rd = rnd (Z.to_nat n) ∧ m = 2 ^ n - 1 ∧ 0 ≤ m ≤ 511.
Proof.
  intros Hafter Hin.
  destruct (after_fields _ _ Hafter) as (Hmax & _).
  destruct (putOrPost_sleeps _ _ _ _ _ _ _ _ _ Hin) as (k & Hk & -> & -> & ->).
  rewrite Hmax in Hk.
  pose proof (ctor_maxRetries url) as Hten.
  rewrite Hten in Hk.
  rewrite maxSlot_exponential by lia. rewrite Nat2Z.id.
  split; [lia|]. split; [done|]. split; [done|].
  assert (2 ^ 0 ≤ 2 ^ Z.of_nat k ≤ 2 ^ 9) as Hp.
  { split; apply Z.pow_le_mono_r; lia. }
  change (2 ^ 0) with 1 in Hp. change (2 ^ 9) with 512 in Hp. lia.
Qed.


Lemma omap_cookies {B} (f : CurlOption → option B) cs :
  (∀ c, f (CookieList c) = None) → omap f (map CookieList cs) = [].
Proof. intros Hf. induction cs as [|c cs IH]; [done|]. simpl. by rewrite Hf. Qed.

(** X10. [perform] switches the SSL checks of the handle off when
    [noSSLChecks] is set and the verbose output on when [debug] is set, and
    otherwise leaves these options alone: after its [setOpt]s on a handle
    whose earlier [setOpt]s were [log], the verification of the peer and of
    the host is off if [noSSLChecks] is set and as [log] left it if not,
    and likewise for the verbose output. So a handle of the pool that was
    once used without SSL checks stays without them. *)
Theorem perform_keeps_handle_options p verb resource content qp hs timeout log :
  let opts := perform_opts h p verb resource content qp hs timeout in
  ssl_verify_peer (log ++ opts)
  = (if noSSLChecks p then Some false else ssl_verify_peer log)
  ∧ ssl_verify_host (log ++ opts)
    = (if noSSLChecks p then Some false else ssl_verify_host log)
  ∧ verbose (log ++ opts) = (if debug p then Some true else verbose log).
Proof.
  intros opts. subst opts.
  unfold ssl_verify_peer, ssl_verify_host, verbose, perform_opts.
  rewrite !omap_app, !omap_cookies by done.
  destruct (debug p), (noSSLChecks p), (data content), timeout; simpl;
    rewrite ?app_nil_r, ?last_snoc; auto.
Qed.

Lemma onHeader_dropping block acc :
  CRLF ∉ block → foldl onHeader (true, acc) block = (true, acc).
Proof.
  induction block as [|l block IH]; [done|]. intros Hno.
  apply not_elem_of_cons in Hno as [Hne Hno]. cbn [foldl onHeader].
  destruct (String.prefix "HTTP/1.1 100 Continue" l); [by apply IH|].
  rewrite decide_False by done. by apply IH.
Qed.

Lemma onHeader_CRLF acc : onHeader (true, acc) CRLF = (false, acc).
Proof. unfold onHeader, CRLF. cbn [String.prefix]. by rewrite decide_True. Qed.

(** X11. The header lines of an interim [100 Continue] response do not
    reach the response: from a line that begins with [HTTP/1.1 100 Continue]
    up to and including the next blank line, every line is dropped, and the
    header text is that of the lines after it; if the blank line never
    comes, all the lines after the first are dropped. *)
Theorem continue_block_dropped st cont block rest chunks :
  String.prefix "HTTP/1.1 100 Continue" cont = true →
  CRLF ∉ block →
  header_ (delivered h st (cont :: block ++ CRLF :: rest) chunks)
  = header_ (delivered h st rest chunks)
  ∧ header_ (delivered h st (cont :: block) chunks) = "".
Proof.
  intros Hcont Hblock. unfold delivered. cbn [header_ foldl].
  assert (onHeader (false, "") cont = (true, "")) as ->
    by (unfold onHeader; by rewrite Hcont).
  rewrite foldl_app, !onHeader_dropping by done. split; [|done].
  cbn [foldl]. by rewrite onHeader_CRLF.
Qed.

Lemma append_assoc (a b c : string) : (a +:+ b) +:+ c = a +:+ (b +:+ c).
Proof.
  induction a as [|x a IH]; [done|].
  change (String x ((a +:+ b) +:+ c) = String x (a +:+ (b +:+ c))).
  by rewrite IH.
Qed.

Lemma append_nil_r (a : string) : a +:+ "" = a.
Proof.
  induction a as [|x a IH]; [done|].
  change (String x (a +:+ "") = String x a). by rewrite IH.
Qed.

Lemma onHeader_appending lines acc :
  Forall (λ l, String.prefix "HTTP/1.1 100 Continue" l = false) lines →
  foldl onHeader (false, acc) lines
  = (false, acc +:+ foldr String.append "" lines).
Proof.
  revert acc. induction lines as [|l lines IH]; intros acc Hall.
  - simpl. by rewrite append_nil_r.
  - apply Forall_cons in Hall as [Hl Hall]. cbn [foldl foldr onHeader].
    rewrite Hl. rewrite IH by done. by rewrite append_assoc.
Qed.

Lemma foldl_append chunks acc :
  foldl String.append acc chunks = acc +:+ foldr String.append "" chunks.
Proof.
  revert acc. induction chunks as [|c chunks IH]; intros acc.
  - simpl. by rewrite append_nil_r.
  - cbn [foldl foldr]. by rewrite IH, append_assoc.
Qed.

(** X12. Without an interim response, nothing is lost: when no header
    line begins with [HTTP/1.1 100 Continue], the header text of the
    response is all the header lines, in the order received, and its body is
    all the chunks, in the order received; the code is the status. *)
Theorem delivered_keeps_everything st lines chunks :
  Forall (λ l, String.prefix "HTTP/1.1 100 Continue" l = false) lines →
  header_ (delivered h st lines chunks) = foldr String.append "" lines
  ∧ body_ (delivered h st lines chunks) = foldr String.append "" chunks
  ∧ code (delivered h st lines chunks) = st.
Proof.
  intros Hall. unfold delivered. cbn [header_ body_ code code_].
  rewrite onHeader_appending by done. by rewrite foldl_append.
Qed.

(** X13. [authenticate] catches [ML::Exception] and nothing else: when
    [postTyped] returns, the call returns true and the token is stored;
    when it throws an [ML::Exception], the call returns false; when it
    throws the curl error of a failed transfer, that exception leaves
    [authenticate]. The proxy is the same after a failure of either kind,
    and only the token ever changes. After a success the requests of
    [putOrPost] carry the new token as a cookie, unless it is empty. *)
Theorem authenticate_catches_ML_only p posted :
  let r := authenticate_call p posted in
  (∀ token, posted = Return token →
     r.1 = Return true ∧ authToken r.2 = token
     ∧ r = (Return true, (authenticate p (Some token)).2)
     ∧ ∀ resource body isPost net rnd opts,
         EvPerform opts
           ∈ (Rest.putOrPost h r.2 resource body isPost net rnd).2 →
         (cookie_line token ∈ header_lines (EvPerform opts) ↔ token ≠ ""))
  ∧ (∀ what, posted = Throw (MLException what) → r = (Return false, p))
  ∧ (∀ c, posted = Throw (LibcurlRuntimeError c) →
       r = (Throw (LibcurlRuntimeError c), p))
  ∧ serviceUri r.2 = serviceUri p ∧ noSSLChecks r.2 = noSSLChecks p
  ∧ debug r.2 = debug p ∧ cookies r.2 = cookies p
  ∧ maxRetries r.2 = maxRetries p.
Proof.
  intros r. subst r. split; [|split; [|split]].
  - intros token ->. cbn [authenticate_call fst snd authToken].
    split; [done|]. split; [done|]. split; [done|].
    intros resource body isPost net rnd opts ->%loop_performs.
    unfold Rest.request_opts. rewrite header_lines_perform.
    unfold curlHeaders, putOrPost_headers. cbn [authToken].
    case_decide as Htok; rewrite token_nonempty in Htok.
    + split; [done|]. intros _. by left.
    + apply dec_stable in Htok. subst token. cbn [map app].
      split; [|done].
      destruct (data _); rewrite ?elem_of_cons, ?elem_of_nil;
        intros H'; decompose [or] H'; done.
  - by intros what ->.
  - by intros c ->.
  - by destruct posted as [token|[c|what]|].
Qed.

End Calls.


Lemma putOrPost_returned_response_witness :
  let call := Rest.putOrPost plain_header proxy3 "/bids" "{}" true fails_twice
                (λ _, 7) in
  let resp := delivered plain_header 200 [] ["ok"] in
  call.1 = Return resp
  ∧ ((∃ k, (k < maxRetries proxy3)%nat
         ∧ attempt plain_header proxy3 "/bids" "{}" true fails_twice k
           = Return resp
         ∧ code resp < 400
         ∧ schedule call.2 = backoff k ++ [Attempt])
     ∨ (schedule call.2 = backoff (maxRetries proxy3)
        ∧ ((maxRetries proxy3 = 0)%nat →
           resp = Response_default plain_header ∧ call.2 = [])
        ∧ ((0 < maxRetries proxy3)%nat →
           attempt plain_header proxy3 "/bids" "{}" true fails_twice
             (maxRetries proxy3 - 1) = Return resp
           ∧ 500 ≤ code resp))).
Proof.
  intros call resp.
  assert (call.1 = Return resp) as H by (vm_compute; reflexivity).
  split; [exact H|].
  exact (putOrPost_returned_response plain_header proxy3 "/bids" "{}" true
           fails_twice (λ _, 7) resp H).
Defined.

Lemma putOrPost_thrown_exception_witness :
  let call := Rest.putOrPost plain_header proxy3 "/bids" "{}" true
                fails_then_drops (λ _, 7) in
  body_returns plain_header
  ∧ call.1 = Throw (LibcurlRuntimeError 7)
  ∧ ∃ k, (k < maxRetries proxy3)%nat
      ∧ schedule call.2 = backoff k ++ [Attempt]
      ∧ ((LibcurlRuntimeError 7 = Unrecoverable
          ∧ ∃ resp,
              attempt plain_header proxy3 "/bids" "{}" true fails_then_drops k
              = Return resp
              ∧ 400 ≤ code resp < 500)
         ∨ (∃ c, LibcurlRuntimeError 7 = LibcurlRuntimeError c
                 ∧ fails_then_drops k = CurlError c
                 ∧ default_exceptions plain_header = true)).
Proof.
  intros call.
  assert (call.1 = Throw (LibcurlRuntimeError 7)) as H
    by (vm_compute; reflexivity).
  split; [exact plain_body_returns|]. split; [exact H|].
  exact (putOrPost_thrown_exception plain_header plain_body_returns proxy3
           "/bids" "{}" true fails_then_drops (λ _, 7)
           (LibcurlRuntimeError 7) H).
Defined.

Lemma putOrPost_transport_error_not_retried_witness :
  let call := Rest.putOrPost plain_header proxy3 "/bids" "{}" true
                fails_then_drops (λ _, 7) in
  body_returns plain_header
  ∧ (1 < maxRetries proxy3)%nat
  ∧ (∀ j, (j < 1)%nat → server_error (fails_then_drops j))
  ∧ fails_then_drops 1 = CurlError 7
  ∧ default_exceptions plain_header = true
  ∧ call.1 = Throw (LibcurlRuntimeError 7)
  ∧ schedule call.2 = backoff 1 ++ [Attempt].
Proof.
  intros call.
  assert (1 < maxRetries proxy3)%nat as H1 by (simpl; lia).
  assert (∀ j, (j < 1)%nat → server_error (fails_then_drops j)) as H2.
  { intros j Hj. exists 503, [], []. unfold fails_then_drops.
    rewrite bool_decide_eq_true_2 by done. split; [done|lia]. }
  assert (fails_then_drops 1 = CurlError 7) as H3 by reflexivity.
  assert (default_exceptions plain_header = true) as H4 by reflexivity.
  split; [exact plain_body_returns|].
  split; [exact H1|]. split; [exact H2|]. split; [exact H3|].
  split; [exact H4|].
  exact (putOrPost_transport_error_not_retried plain_header
           plain_body_returns proxy3 "/bids" "{}" true fails_then_drops
           (λ _, 7) 1 7 H1 H2 H3 H4).
Defined.

Lemma putOrPost_body_throws_witness :
  (0 < maxRetries proxy3)%nat
  ∧ always_fails 0 = Delivered 503 [] ["busy"]
  ∧ 400 ≤ 503
  ∧ Response_body throwing_header (delivered throwing_header 503 [] ["busy"])
    = Throw (MLException "no body")
  ∧ Rest.putOrPost throwing_header proxy3 "/bids" "{}" true always_fails
      (λ _, 7)
    = (Throw (MLException "no body"),
       [EvPerform (Rest.request_opts throwing_header proxy3 "/bids" "{}"
                     true)]).
Proof.
  assert (0 < maxRetries proxy3)%nat as H1 by (simpl; lia).
  assert (always_fails 0 = Delivered 503 [] ["busy"]) as H2 by reflexivity.
  assert (400 ≤ 503) as H3 by lia.
  assert (Response_body throwing_header
            (delivered throwing_header 503 [] ["busy"])
          = Throw (MLException "no body")) as H4 by reflexivity.
  split; [exact H1|]. split; [exact H2|]. split; [exact H3|].
  split; [exact H4|].
  exact (putOrPost_body_throws throwing_header proxy3 "/bids" "{}" true
           always_fails (λ _, 7) 503 [] ["busy"] (MLException "no body")
           H1 H2 H3 H4).
Defined.

Lemma putOrPost_requests_identical_witness :
  let opts := Rest.request_opts plain_header proxy3 "/bids" "{}" false in
  EvPerform opts
    ∈ (Rest.putOrPost plain_header proxy3 "/bids" "{}" false always_fails
         (λ _, 7)).2
  ∧ CustomRequest "PUT" ∈ opts.
Proof.
  intros opts.
  assert (EvPerform opts
            ∈ (Rest.putOrPost plain_header proxy3 "/bids" "{}" false
                 always_fails (λ _, 7)).2) as H by (vm_compute; left).
  split; [exact H|].
  exact (proj1 (proj2 (putOrPost_requests_identical plain_header proxy3
                         "/bids" "{}" false always_fails (λ _, 7) opts H))).
Defined.

Lemma putOrPost_first_error_once_witness :
  let tr := (Rest.putOrPost plain_header proxy3 "/bids" "{}" true
               always_fails (λ _, 7)).2 in
  EvFirstError "POST" "/bids" 503 0 "{}" "busy" ∈ tr
  ∧ (length (filter (λ e, is_first_error e = true) tr) ≤ 1)%nat.
Proof.
  intros tr.
  split; [vm_compute; right; left|].
  exact (proj1 (putOrPost_first_error_once plain_header proxy3 "/bids" "{}"
                  true always_fails (λ _, 7))).
Defined.

Lemma ctor_sleep_slots_witness :
  let p := JsonRestProxy_ctor plain_header "http://bids" in
  let tr := (Rest.putOrPost plain_header p "/bids" "{}" true always_fails
               (λ _, 7)).2 in
  after p p
  ∧ EvSleep 1 7 1 ∈ tr
  ∧ 0 ≤ 1 ≤ 9 ∧ 7 = 7 ∧ 1 = 2 ^ 1 - 1 ∧ 0 ≤ 1 ≤ 511.
Proof.
  intros p tr.
  assert (after p p) as H1 by constructor.
  assert (EvSleep 1 7 1 ∈ tr) as H2 by (vm_compute; do 5 right; left).
  split; [exact H1|]. split; [exact H2|].
  exact (ctor_sleep_slots plain_header "http://bids" p "/bids" "{}" true
           always_fails (λ _, 7) 1 7 1 H1 H2).
Defined.

Lemma continue_block_dropped_witness :
  String.prefix "HTTP/1.1 100 Continue" continue_line = true
  ∧ (CRLF ∉ ["Server: bids" +:+ CRLF])
  ∧ header_ (delivered plain_header 200
               (continue_line :: ["Server: bids" +:+ CRLF] ++ CRLF :: ok_lines)
               ["ok"])
    = header_ (delivered plain_header 200 ok_lines ["ok"]).
Proof.
  assert (String.prefix "HTTP/1.1 100 Continue" continue_line = true) as H1
    by reflexivity.
  assert (CRLF ∉ ["Server: bids" +:+ CRLF]) as H2
    by (apply (bool_decide_unpack _); vm_compute; exact I).
  split; [exact H1|]. split; [exact H2|].
  exact (proj1 (continue_block_dropped plain_header 200 continue_line
                  ["Server: bids" +:+ CRLF] ok_lines ["ok"] H1 H2)).
Defined.

Lemma delivered_keeps_everything_witness :
  Forall (λ l, String.prefix "HTTP/1.1 100 Continue" l = false) ok_lines
  ∧ body_ (delivered plain_header 200 ok_lines ["o"; "k"])
    = foldr String.append "" ["o"; "k"].
Proof.
  assert (Forall (λ l, String.prefix "HTTP/1.1 100 Continue" l = false)
            ok_lines) as H by (repeat constructor).
  split; [exact H|].
  exact (proj1 (proj2 (delivered_keeps_everything plain_header 200 ok_lines
                         ["o"; "k"] H))).
Defined.

Lemma authenticate_catches_ML_only_witness :
  let r := authenticate_call proxy3 (Return "t0k3n") in
  r.1 = Return true ∧ authToken r.2 = "t0k3n".
Proof.
  intros r.
  destruct (proj1 (authenticate_catches_ML_only plain_header proxy3
                     (Return "t0k3n")) "t0k3n" eq_refl) as (H1 & H2 & _).
  split; [exact H1|exact H2].
Defined.

End ProxyFacts.

(** ** Facts about the connection pool *)

Module PoolFacts.
Import Rest.

Local Open Scope nat_scope.

Lemma getConnection_empty s :
  inactive s = [] → getConnection s = (made s, mkPool [] (S (made s))).
Proof. unfold getConnection. by intros ->. Qed.

Lemma getConnection_back s l c :
  inactive s = l ++ [c] → getConnection s = (c, mkPool l (made s)).
Proof.
  unfold getConnection. intros ->. by rewrite last_snoc, removelast_last.
Qed.

Lemma inactive_cases s : inactive s = [] ∨ ∃ l c, inactive s = l ++ [c].
Proof.
  destruct (inactive s) as [|x l] using rev_ind; [by left|].
  right. by exists l, x.
Qed.

Lemma conserved_NoDup st : conserved st → NoDup (inactive st.1 ++ st.2).
Proof. unfold conserved. intros ->. apply NoDup_seq. Qed.

Lemma conserved_made st : conserved st → length st.2 ≤ made st.1.
Proof.
  unfold conserved. intros Hc. apply Permutation_length in Hc.
  rewrite length_app, length_seq in Hc. lia.
Qed.

Lemma filter_ne_NoDup (c : Easy) l :
  NoDup l → c ∈ l → l ≡ₚ c :: filter (λ x, x ≠ c) l.
Proof.
  induction 1 as [|x l Hx Hl IH]; [by intros ?%elem_of_nil|].
  intros [->|Hin]%elem_of_cons.
  - rewrite filter_cons_False by (by intros ?). f_equiv.
    clear IH Hl. induction l as [|y l IH]; [done|].
    apply not_elem_of_cons in Hx as [Hne Hx].
    rewrite filter_cons_True by done. f_equiv. by apply IH.
  - assert (x ≠ c) as Hne by (intros ->; done).
    rewrite filter_cons_True by done. rewrite (IH Hin) at 1. apply perm_swap.
Qed.

Lemma pool_step_conserved st op st' :
  conserved st → pool_step st op = Some st' → conserved st'.
Proof.
  destruct st as [s held]. unfold conserved. cbn [fst snd]. intros Hc.
  destruct op as [|c]; cbn [pool_step fst snd].
  - destruct (inactive_cases s) as [Hs|(l & c & Hs)].
    + rewrite (getConnection_empty s Hs). intros [= <-]. cbn [fst snd inactive made].
      rewrite Hs in Hc. cbn [app] in *. rewrite seq_S, <-Hc. cbn [Nat.add].
      by rewrite Permutation_cons_append.
    + rewrite (getConnection_back s l c Hs). intros [= <-].
      cbn [fst snd inactive made]. rewrite <-Hc, Hs, <-app_assoc. done.
  - case_decide as Hin; [|done]. intros [= <-].
    cbn [fst snd Connection_dtor doneConnection inactive made].
    rewrite <-Hc, <-app_assoc. f_equiv. cbn [app].
    symmetry. apply filter_ne_NoDup; [|done].
    assert (NoDup (inactive s ++ held)) as Hnd by (rewrite Hc; apply NoDup_seq).
    by apply NoDup_app in Hnd as (_ & _ & Hnd).
Qed.

Lemma pool_run_conserved ops :
  ∀ st st', conserved st → pool_run ops st = Some st' → conserved st'.
Proof.
  induction ops as [|op ops IH]; intros st st' Hc; cbn [pool_run].
  - by intros [= <-].
  - destruct (pool_step st op) as [st1|] eqn:Hstep; [|done].
    apply IH. by eapply pool_step_conserved.
Qed.

Lemma conserved_new : conserved (Pool_new, []).
Proof. unfold conserved. reflexivity. Qed.

(** X14. Handles are neither lost nor shared. After any sequence of
    calls of [perform] that start and end, in any interleaving, from a new
    proxy, every handle made so far is either in [inactive] or held by one
    call in flight, and by one only; the handle that [getConnection] gives
    out next is held by no call in flight; and once all calls have ended,
    the destructor of the proxy deletes every handle made, each once. *)
Theorem pool_handles_conserved ops s held :
  pool_run ops (Pool_new, []) = Some (s, held) →
  inactive s ++ held ≡ₚ seq 0 (made s)
  ∧ NoDup (inactive s ++ held)
  ∧ ((getConnection s).1 ∉ held)
  ∧ (held = [] → HttpRestProxy_dtor s ≡ₚ seq 0 (made s)).
Proof.
  intros Hrun.
  pose proof (pool_run_conserved ops _ _ conserved_new Hrun) as Hc.
  pose proof (conserved_NoDup _ Hc) as Hnd.
  unfold conserved in Hc. cbn [fst snd] in *.
  split; [done|]. split; [done|]. split.
  - destruct (inactive_cases s) as [Hs|(l & c & Hs)].
    + rewrite (getConnection_empty s Hs). cbn [fst]. intros Hin.
      assert (made s ∈ seq 0 (made s)) as Hm.
      { rewrite <-Hc. apply elem_of_app. by right. }
      apply elem_of_seq in Hm. lia.
    + rewrite (getConnection_back s l c Hs). cbn [fst]. intros Hin.
      apply NoDup_app in Hnd as (_ & Hdisj & _).
      apply (Hdisj c); [|done]. rewrite Hs. apply elem_of_app. right. by left.
  - intros ->. by rewrite app_nil_r in Hc.
Qed.

Lemma pool_step_made st op st' :
  conserved st → pool_step st op = Some st' →
  made st'.1 = made st.1 `max` length st'.2.
Proof.
  destruct st as [s held]. intros Hc. pose proof (conserved_made _ Hc) as Hm.
  unfold conserved in Hc. apply Permutation_length in Hc.
  rewrite length_app, length_seq in Hc. cbn [fst snd] in *.
  destruct op as [|c]; cbn [pool_step fst snd].
  - destruct (inactive_cases s) as [Hs|(l & c & Hs)].
    + rewrite (getConnection_empty s Hs). intros [= <-].
      rewrite Hs in Hc. cbn [fst snd made length] in *. lia.
    + rewrite (getConnection_back s l c Hs). intros [= <-].
      rewrite Hs, length_app in Hc. cbn [fst snd made length] in *. lia.
  - case_decide as Hin; [|done]. intros [= <-].
    cbn [fst snd Connection_dtor doneConnection made].
    pose proof (length_filter (λ x, x ≠ c) held). lia.
Qed.

Lemma pool_run_made ops :
  ∀ st st', conserved st → pool_run ops st = Some st' →
  made st'.1 = made st.1 `max` pool_peak ops st.
Proof.
  induction ops as [|op ops IH]; intros st st' Hc; cbn [pool_run pool_peak].
  - intros [= <-]. pose proof (conserved_made _ Hc). lia.
  - destruct (pool_step st op) as [st1|] eqn:Hstep; [|done]. intros Hrun.
    pose proof (pool_step_conserved _ _ _ Hc Hstep) as Hc1.
    rewrite (IH _ _ Hc1 Hrun), (pool_step_made _ _ _ Hc Hstep).
    pose proof (conserved_made _ Hc).
    assert (length st1.2 ≤ pool_peak ops st1) as Hle.
    { destruct ops as [|op' ops']; cbn [pool_peak]; [done|].
      destruct (pool_step st1 op'); lia. }
    lia.
Qed.

(** X15. The proxy makes no more handles than it needs: after any
    sequence of calls of [perform] that start and end, from a new proxy, the
    number of handles made is the largest number of calls that were in
    flight at once. *)
Theorem pool_makes_peak_handles ops s held :
  pool_run ops (Pool_new, []) = Some (s, held) →
  made s = pool_peak ops (Pool_new, []).
Proof.
  intros Hrun.
  pose proof (pool_run_made ops _ _ conserved_new Hrun) as Hm.
  cbn [fst snd made Pool_new] in Hm. by rewrite Nat.max_0_l in Hm.
Qed.

(** X16. The pool is a stack, and a call gives back the handle it took:
    the connection given back last is the next one handed out, which takes
    the pool back to where it was; a [perform] on a pool that is not empty
    leaves it as it found it; and calls made one after the other, however
    many, all run on the handle made for the first of them. *)
Theorem pool_reuses_last_handle s conn n :
  getConnection (doneConnection conn s) = (conn, s)
  ∧ (inactive s ≠ [] → (perform_pool s).2 = s)
  ∧ perform_pool (perform_pool s).2 = perform_pool s
  ∧ Nat.iter (S n) (λ s, (perform_pool s).2) Pool_new = mkPool [0] 1.
Proof.
  assert (∀ s, inactive s ≠ [] → (perform_pool s).2 = s) as Hsame.
  { intros s0 Hne. destruct (inactive_cases s0) as [Hs|(l & c & Hs)]; [done|].
    unfold perform_pool. rewrite (getConnection_back s0 l c Hs).
    cbn [snd Connection_dtor]. unfold doneConnection.
    cbn [inactive made]. rewrite <-Hs. by destruct s0. }
  split; [|split; [apply Hsame|split]].
  - rewrite (getConnection_back _ (inactive s) conn) by done. by destruct s.
  - destruct (inactive_cases s) as [Hs|(l & c & Hs)].
    + unfold perform_pool at 2 3. rewrite (getConnection_empty s Hs).
      cbn [snd Connection_dtor]. unfold doneConnection.
      cbn [inactive made app]. done.
    + unfold perform_pool at 2 3. rewrite (getConnection_back s l c Hs).
      cbn [snd Connection_dtor]. unfold doneConnection.
      cbn [inactive made].
      unfold perform_pool. by rewrite (getConnection_back _ l c).
  - induction n as [|n IH]; [done|].
    rewrite Nat.iter_succ, IH. done.
Qed.

Lemma pool_handles_conserved_witness :
  pool_run [Take; Take; Give 0; Take] (Pool_new, [])
  = Some (mkPool [] 2, [0; 1])
  ∧ [] ++ [0; 1] ≡ₚ seq 0 2.
Proof.
  assert (pool_run [Take; Take; Give 0; Take] (Pool_new, [])
          = Some (mkPool [] 2, [0; 1])) as H by reflexivity.
  split; [exact H|].
  exact (proj1 (pool_handles_conserved [Take; Take; Give 0; Take]
                  (mkPool [] 2) [0; 1] H)).
Defined.

Lemma pool_makes_peak_handles_witness :
  pool_run [Take; Take; Give 0; Take; Give 1; Give 0] (Pool_new, [])
  = Some (mkPool [1; 0] 2, [])
  ∧ 2 = pool_peak [Take; Take; Give 0; Take; Give 1; Give 0] (Pool_new, []).
Proof.
  assert (pool_run [Take; Take; Give 0; Take; Give 1; Give 0] (Pool_new, [])
          = Some (mkPool [1; 0] 2, [])) as H by reflexivity.
  split; [exact H|].
  exact (pool_makes_peak_handles [Take; Take; Give 0; Take; Give 1; Give 0]
           (mkPool [1; 0] 2) [] H).
Defined.

End PoolFacts.

(** ** More facts about the document comparison *)

Module CheckFacts.
Import Json JsonFacts SynthFacts.

Local Open Scope nat_scope.

Abbreviation sumf f m := (map_fold (λ k v errs, errs + f k v) 0 m).

Lemma sumf_insert {A} (f : string → A → nat) (m : gmap string A) i x :
  m !! i = None → sumf f (<[i:=x]> m) = sumf f m + f i x.
Proof.
  intros Hi.
  by rewrite (map_fold_insert_L (λ k v errs, errs + f k v) 0 i x m)
    by (done || intros; lia).
Qed.

Lemma sumf_delete {A} (f : string → A → nat) (m : gmap string A) i x :
  m !! i = Some x → sumf f m = sumf f (delete i m) + f i x.
Proof.
  intros Hi. rewrite <-(insert_delete_id m i x) at 1 by done.
  apply sumf_insert, lookup_delete_eq.
Qed.

Lemma sumf_ext {A} (f g : string → A → nat) (m : gmap string A) :
  (∀ k v, m !! k = Some v → f k v = g k v) → sumf f m = sumf g m.
Proof.
  induction m as [|i x m Hi IH] using map_ind; [done|]. intros Hfg.
  rewrite !sumf_insert by done. rewrite IH.
  - by rewrite (Hfg i x) by apply lookup_insert_eq.
  - intros k v Hk. apply Hfg. rewrite lookup_insert_ne; [done|].
    intros ->. congruence.
Qed.

(** The two loops over the members, with the roles of the two objects
    exchanged. *)
Lemma members_sum_sym {A} (g : A → A → nat) (ms : gmap string A) :
  ∀ md : gmap string A,
  sumf (λ k v, match md !! k with None => 1 | Some d => g v d end) ms
  + sumf (λ k (_ : A), match ms !! k with None => 1 | Some _ => 0 end) md
  = sumf (λ k d, match ms !! k with None => 1 | Some v => g v d end) md
    + sumf (λ k (_ : A), match md !! k with None => 1 | Some _ => 0 end) ms.
Proof.
  induction ms as [|i x m Hi IH] using map_ind; intros md.
  - rewrite !map_fold_empty. rewrite Nat.add_0_l, Nat.add_0_r.
    apply sumf_ext. intros k v _. by rewrite lookup_empty.
  - rewrite !sumf_insert by done.
    destruct (md !! i) as [d|] eqn:Hd.
    + rewrite (sumf_delete _ md i d Hd).
      rewrite (sumf_delete (λ k d0, match <[i:=x]> m !! k with
                                    | None => 1 | Some v => g v d0 end)
                 md i d Hd).
      rewrite !lookup_insert_eq.
      rewrite (sumf_ext _ (λ k (_ : A), match m !! k with
                                        | None => 1 | Some _ => 0 end)
                 (delete i md)).
      2:{ intros k v Hk. rewrite lookup_insert_ne; [done|].
          intros ->. by rewrite lookup_delete_eq in Hk. }
      rewrite (sumf_ext (λ k d0, match <[i:=x]> m !! k with
                                 | None => 1 | Some v => g v d0 end)
                 (λ k d0, match m !! k with
                          | None => 1 | Some v => g v d0 end)
                 (delete i md)).
      2:{ intros k v Hk. rewrite lookup_insert_ne; [done|].
          intros ->. by rewrite lookup_delete_eq in Hk. }
      rewrite (sumf_ext (λ k v, match md !! k with
                                | None => 1 | Some d0 => g v d0 end)
                 (λ k v, match delete i md !! k with
                         | None => 1 | Some d0 => g v d0 end) m).
      2:{ intros k v Hk. rewrite lookup_delete_ne; [done|].
          intros ->. congruence. }
      rewrite (sumf_ext (λ k (_ : A), match md !! k with
                                      | None => 1 | Some _ => 0 end)
                 (λ k (_ : A), match delete i md !! k with
                               | None => 1 | Some _ => 0 end) m).
      2:{ intros k v Hk. rewrite lookup_delete_ne; [done|].
          intros ->. congruence. }
      specialize (IH (delete i md)). lia.
    + rewrite (sumf_ext (λ k (_ : A), match <[i:=x]> m !! k with
                                      | None => 1 | Some _ => 0 end)
                 (λ k (_ : A), match m !! k with
                               | None => 1 | Some _ => 0 end) md).
      2:{ intros k v Hk. rewrite lookup_insert_ne; [done|].
          intros ->. congruence. }
      rewrite (sumf_ext (λ k d0, match <[i:=x]> m !! k with
                                 | None => 1 | Some v => g v d0 end)
                 (λ k d0, match m !! k with
                          | None => 1 | Some v => g v d0 end) md).
      2:{ intros k v Hk. rewrite lookup_insert_ne; [done|].
          intros ->. congruence. }
      specialize (IH md). lia.
Qed.

Lemma check_mismatch a b : type a ≠ type b → check a b = 1.
Proof. intros Hne. destruct a; simpl; by rewrite decide_True. Qed.

Lemma check_scalar_l a b :
  is_scalar a = true → check a b = if decide (a = b) then 0 else 1.
Proof.
  intros Ha. destruct a; try done; destruct b; simpl;
    repeat case_decide; congruence.
Qed.

Lemma check_scalar_r a b :
  is_scalar a = true → check b a = if decide (a = b) then 0 else 1.
Proof.
  intros Ha. destruct (decide (type b = type a)) as [Ht|Ht].
  - assert (is_scalar b = true) as Hb by (by destruct a, b).
    rewrite check_scalar_l by done. repeat case_decide; congruence.
  - rewrite check_mismatch by done. rewrite decide_False; [done|].
    intros ->. done.
Qed.

Lemma check_object_sum ms md :
  check (object ms) (object md)
  = sumf (λ k v, match md !! k with None => 1 | Some d => check v d end) ms
    + sumf (λ k (_ : Value), match ms !! k with None => 1 | Some _ => 0 end)
        md.
Proof. reflexivity. Qed.

Lemma check_zero_type a b : check a b = 0 → type a = type b.
Proof.
  intros Hz. destruct (decide (type a = type b)) as [|Hne]; [done|].
  by rewrite check_mismatch in Hz.
Qed.

Lemma check_trans a : ∀ b c, check a b = 0 → check b c = 0 → check a c = 0.
Proof.
  induction a as [a Ha|l _|ms IH] using Value_ind'; intros b c Hab Hbc.
  - rewrite check_scalar_l in Hab by done. case_decide; [|done]. by subst b.
  - pose proof (check_zero_type _ _ Hab) as Hb.
    pose proof (check_zero_type _ _ Hbc) as Hc.
    destruct b as [| | | | | |l'|]; try done.
    destruct c as [| | | | | |l''|]; try done.
    apply check_array_zero in Hab as [Hl1 Hx1].
    apply check_array_zero in Hbc as [Hl2 Hx2].
    apply check_array_zero. split; [congruence|].
    intros x. by rewrite Hx1.
  - pose proof (check_zero_type _ _ Hab) as Hb.
    pose proof (check_zero_type _ _ Hbc) as Hc.
    destruct b as [| | | | | | |md]; try done.
    destruct c as [| | | | | | |mc]; try done.
    apply check_object in Hab as [Hm1 Hk1].
    apply check_object in Hbc as [Hm2 Hk2].
    apply check_object. split.
    + intros k v Hv. destruct (Hm1 k v Hv) as (d & Hd & Hvd).
      destruct (Hm2 k d Hd) as (e & He & Hde). exists e. split; [done|].
      by apply (IH k v Hv d e).
    + intros k Hk. by apply Hk1, Hk2.
Qed.

Lemma check_zero_sym a : ∀ b, check a b = 0 → check b a = 0.
Proof.
  induction a as [a Ha|l _|ms IH] using Value_ind'; intros b Hab.
  - rewrite check_scalar_l in Hab by done. rewrite check_scalar_r by done.
    by case_decide.
  - pose proof (check_zero_type _ _ Hab) as Hb.
    destruct b as [| | | | | |l'|]; try done.
    apply check_array_zero in Hab as [Hl Hx].
    apply check_array_zero. split; [done|]. intros x. by rewrite Hx.
  - pose proof (check_zero_type _ _ Hab) as Hb.
    destruct b as [| | | | | | |md]; try done.
    apply check_object in Hab as [Hm Hk].
    apply check_object. split.
    + intros k d Hd. destruct (Hk k (mk_is_Some _ _ Hd)) as [v Hv].
      exists v. split; [done|].
      destruct (Hm k v Hv) as (d' & Hd' & Hz). apply (IH k v Hv).
      congruence.
    + intros k [v Hv]. destruct (Hm k v Hv) as (d & Hd & _). by exists d.
Qed.

(** X17. [check] counts the same number of errors whichever document is
    given first: [check(src, dst)] and [check(dst, src)] fail the same
    number of [BOOST_CHECK]s. *)
Theorem check_symmetric a : ∀ b, check a b = check b a.
Proof.
  induction a as [a Ha|l _|ms IH] using Value_ind'; intros b.
  - rewrite check_scalar_l, check_scalar_r by done. done.
  - destruct b as [| | | | | |l'|];
      try (rewrite !check_mismatch by done; done).
    rewrite !check_array. repeat case_decide; lia.
  - destruct b as [| | | | | | |md];
      try (rewrite !check_mismatch by done; done).
    rewrite !check_object_sum.
    rewrite (members_sum_sym check ms md).
    f_equal. apply sumf_ext. intros k d Hk.
    destruct (ms !! k) as [v|] eqn:Hv; [|done]. by apply (IH k v).
Qed.

(** X18. The documents that [check] accepts against each other form
    classes: every document is accepted against itself, acceptance does not
    depend on which of the two is given first, and two documents accepted
    against a third are accepted against each other. *)
Theorem check_accepts_equivalence : Equivalence (λ a b, check a b = 0).
Proof.
  split.
  - intros v. apply check_refl.
  - intros a b. apply check_zero_sym.
  - intros a b c. apply check_trans.
Qed.

Lemma array_free_object m :
  array_free (object m) = true
  ↔ map_Forall (λ _ x, array_free x = true) m.
Proof.
  change (array_free (object m))
    with (map_fold (λ (_ : string) x acc, array_free x && acc) true m).
  apply (map_fold_weak_ind
           (λ r m, r = true ↔ map_Forall (λ _ x, array_free x = true) m)).
  - split; [intros _; apply map_Forall_empty|done].
  - intros i x m' r Hi IH. rewrite map_Forall_insert by done.
    rewrite andb_true_iff. by rewrite IH.
Qed.

(** X19. Without arrays the comparison is exact: a document with no
    array at any depth is accepted against one document only, itself; the
    types of the scalars count, so that the integer 1, the unsigned 1 and
    the real 1 are three different values. *)
Theorem check_exact_without_arrays v d :
  array_free v = true → (check v d = 0 ↔ v = d).
Proof.
  intros Hfree. split; [|intros <-; apply check_refl].
  revert d Hfree.
  induction v as [v Hv|l _|ms IH] using Value_ind'; intros d Hfree Hz.
  - rewrite check_scalar_l in Hz by done. by case_decide.
  - done.
  - pose proof (check_zero_type _ _ Hz) as Hd.
    destruct d as [| | | | | | |md]; try done.
    apply check_object in Hz as [Hm Hk].
    apply array_free_object in Hfree.
    f_equal. apply map_eq. intros k.
    destruct (ms !! k) as [v|] eqn:Hv.
    + destruct (Hm k v Hv) as (d & Hd' & Hvd). rewrite Hd'. f_equal.
      apply (IH k v Hv d); [|done]. by apply (Hfree k v).
    + destruct (md !! k) as [d|] eqn:Hd'; [|done].
      destruct (Hk k (mk_is_Some _ _ Hd')) as [v Hv']. congruence.
Qed.

(** X20. The order of the elements is ignored at one level only: the
    elements of an array are compared as whole values, by equality and not
    by [check], so two arrays of one element each are accepted exactly when
    the two elements are equal, and get two errors otherwise. Two arrays
    with the same elements in different orders are accepted against each
    other, but not as the elements of two enclosing arrays. *)
Theorem check_compares_elements_exactly x y :
  check (array [x]) (array [y]) = (if decide (x = y) then 0 else 2)
  ∧ ∀ l1 l2, l1 ≡ₚ l2 → l1 ≠ l2 →
      check (array l1) (array l2) = 0
      ∧ check (array [array l1]) (array [array l2]) = 2.
Proof.
  assert (∀ x y, check (array [x]) (array [y])
                 = if decide (x = y) then 0 else 2) as Hone.
  { clear. intros x y. destruct (decide (x = y)) as [->|Hne].
    { apply check_refl. }
    assert (∀ z : Value, set_of [z] = [z]) as Hset.
    { intros z. unfold set_of. cbn [remove_dups].
      case_decide as Hz; [by apply elem_of_nil in Hz|done]. }
    assert (∀ z w : Value, z ≠ w → set_difference [z] [w] = [z]) as Hdiff.
    { intros z w Hzw. unfold set_difference. cbn [list_difference].
      case_decide as Hz; [by apply list_elem_of_singleton in Hz|done]. }
    rewrite check_array, !Hset, !Hdiff by done.
    by rewrite decide_False by (simpl; lia). }
  split; [apply Hone|]. intros l1 l2 Hp Hne. split.
  - apply check_array_zero. split; [by apply Permutation_length|].
    intros z. by rewrite Hp.
  - rewrite Hone. rewrite decide_False; [done|]. by intros [= ?].
Qed.

(** X21. Two objects are accepted exactly when they have the same member
    names and [check] accepts the two values of every member; a member that
    only one of the two objects has is an error, whichever of them it is. *)
Theorem check_objects_member_by_member ms md :
  check (object ms) (object md) = 0
  ↔ dom ms = dom md
    ∧ ∀ k v d, ms !! k = Some v → md !! k = Some d → check v d = 0.
Proof.
  rewrite check_object. split.
  - intros [Hm Hk]. split.
    + apply set_eq. intros k. rewrite !elem_of_dom. split; [|apply Hk].
      intros [v Hv]. destruct (Hm k v Hv) as (d & Hd & _). by exists d.
    + intros k v d Hv Hd. destruct (Hm k v Hv) as (d' & Hd' & Hz).
      congruence.
  - intros [Hdom Hm]. split.
    + intros k v Hv.
      assert (is_Some (md !! k)) as [d Hd].
      { apply elem_of_dom. rewrite <-Hdom. apply elem_of_dom. by exists v. }
      exists d. split; [done|]. by apply (Hm k v d).
    + intros k Hk. apply elem_of_dom. rewrite Hdom. by apply elem_of_dom.
Qed.

Lemma check_exact_without_arrays_witness :
  let v := object {[ "id" := str "a1"; "imp" := object {[ "w" := int 300 ]} ]} in
  array_free v = true
  ∧ (check v (object {[ "id" := str "a1" ]}) = 0
     ↔ v = object {[ "id" := str "a1" ]}).
Proof.
  intros v.
  assert (array_free v = true) as H by (vm_compute; reflexivity).
  split; [exact H|].
  exact (check_exact_without_arrays v (object {[ "id" := str "a1" ]}) H).
Defined.

Lemma check_compares_elements_exactly_witness :
  [int 1; int 2] ≡ₚ [int 2; int 1]
  ∧ [int 1; int 2] ≠ [int 2; int 1]
  ∧ check (array [int 1; int 2]) (array [int 2; int 1]) = 0
  ∧ check (array [array [int 1; int 2]]) (array [array [int 2; int 1]]) = 2.
Proof.
  assert ([int 1; int 2] ≡ₚ [int 2; int 1]) as H1 by apply Permutation_swap.
  assert ([int 1; int 2] ≠ [int 2; int 1]) as H2 by discriminate.
  split; [exact H1|]. split; [exact H2|].
  exact (proj2 (check_compares_elements_exactly null null) _ _ H1 H2).
Defined.

End CheckFacts.
